(** * Store synchronisation client (src/shared/store/client.ts)

    A shallow embedding of the renderer / websocket side of the store
    synchronisation protocol: the lock-gated change applier, the two
    channel adapters (Electron IPC and socket.io) and the handlers that
    propagate config changes back to the host.

    JavaScript runs one task at a time.  A task is a listener invoked for
    an incoming message; promise continuations (the bodies scheduled by
    [await] and [then]) run afterwards as microtasks, in FIFO order, before
    the next message is looked at.  The embedding keeps that structure:
    listeners are state transformers over a [World], the mutex keeps its
    waiters in the world and its continuations in the world's microtask
    queue. *)

From Stdlib Require Import ZArith Ascii String.
From stdpp Require Import gmap strings list fin_maps.

Open Scope string_scope.
Open Scope list_scope.

(** ** Data model *)

(** What a call of a JavaScript function ends with. *)
Inductive Outcome (A : Type) : Type :=
| Returned (a : A)
| Thrown.
Arguments Returned {A} a.
Arguments Thrown {A}.

(** The shape of the data client.ts is written against; the store
    schema ([AppStore], in the store's index module) is not part of these
    sources.  The store is a JavaScript object: a finite map from property
    names to values. *)
Class Schema : Type := {
  (** values held by the properties of the store *)
  Value : Type;
  (** the [change] part of a [SerializedChange] *)
  Payload : Type;
  (** the payload of 'store-init' ([data: any]) *)
  Wire : Type;
}.

Abbreviation AppStore := (gmap string Value).

(** [SerializedChange] of ./ipc; client.ts reads only [path]. *)
Record SerializedChange `{Schema} : Type := {
  path : string;
  change : Payload;
}.

(** What client.ts imports from ./ipc and from serializr. *)
Class Imports `{Schema} : Type := {
  (** [applyChanges(store, change)] mutates the store in place and returns
      or throws; the store it leaves behind is given in both cases. *)
  applyChanges : AppStore → SerializedChange → Outcome unit * AppStore;
  (** [deserialize(AppStore, data)]; [None] when it throws. *)
  deserialize : Wire → option AppStore;
  (** Modelled from the spec: [observeStore] of ./ipc is not in these
      sources.  The observer of a subtree invokes its handler once per
      mutation of that subtree, synchronously and in mutation order;
      [observed s s'] lists the change records the observer of
      [store.config] reports while the store goes from [s] to [s']. *)
  observed : AppStore → AppStore → list SerializedChange;
}.

(** The transports: Electron's [ipcRenderer] and a socket.io socket. *)
Inductive Transport : Type := Ipc | Ws.

(** Names of the messages client.ts sends, with their payload. *)
Inductive Message `{Schema} : Type :=
| StoreSubscribe
| StoreUpdateDone
| StoreInitDone
| ConfigUpdate (c : SerializedChange).

(** The acknowledgement function socket.io hands to a listener; it is
    identified by the packet it answers. *)
Record AckFn : Type := { packet : nat }.

(** What an execution does, in the order it does it.  [Applied] and
    [Installed] mark the two places where client.ts mutates the store,
    [Locked] and [Unlocked] the moments the mutex changes hands. *)
Inductive Event `{Schema} : Type :=
| Sent (t : Transport) (m : Message)
| Acked (done : AckFn)
| Applied (c : SerializedChange)
| Installed (snapshot : AppStore)
| Locked
| Unlocked
| Uncaught   (** a listener threw *)
| Rejected.  (** the promise of [runExclusive] rejected; nobody handles it *)

(** *** The mutex of async-mutex

    [Mutex] is a semaphore of capacity one: [_value] counts the free
    slots, [_queue] holds the resolvers of the callers waiting in
    [acquire].  The only workers client.ts hands to [runExclusive] are
    closures [() => applyChanges(store, change)], so a waiter is recorded
    by the change it will apply. *)
Inductive Worker `{Schema} : Type :=
| ApplyWorker (c : SerializedChange).

Record Mutex `{Schema} : Type := {
  value : Z;
  queue : list Worker;
}.

(** Promise continuations waiting in the microtask queue. *)
Inductive Job `{Schema} : Type :=
| RunWorker (k : Worker)  (** after [await this.acquire()] *)
| Release.                (** after [await callback()], the [finally] *)

(** The process has one config lock, whose state is kept in the world; a
    [Mutex] argument of the source is a reference to it. *)
Inductive MutexRef : Type := TheConfigLock.

(** Listeners registered with [ipcRenderer.on] and [ws.on]. *)
Inductive Listener : Type :=
| IpcStoreUpdate (configLock : MutexRef)
| IpcStoreInit
| WsStoreUpdate (configLock : option MutexRef)
| WsStoreInit.

(** Handlers registered with [observeStore] on [store.config]. *)
Inductive Observer : Type :=
| ConfigObserver (t : Transport) (configLock : MutexRef).

Record World `{Schema} : Type := {
  store : AppStore;
  mutex : Mutex;
  microtasks : list Job;
  listeners : list Listener;
  observers : list Observer;
  trace : list Event;
}.

(** Synchronous JavaScript code: it changes the world and returns or
    throws. *)
Definition Js `{Schema} (A : Type) : Type := World → Outcome A * World.

Definition ret `{Schema} {A : Type} (a : A) : Js A := λ w, (Returned a, w).

Definition bind `{Schema} {A B : Type} (m : Js A) (k : A → Js B) : Js B :=
  λ w, match m w with
       | (Returned a, w') => k a w'
       | (Thrown, w') => (Thrown, w')
       end.

Definition effect `{Schema} (f : World → World) : Js unit :=
  λ w, (Returned (), f w).

Notation "x <- m ;; k" := (bind m (λ x, k))
  (at level 100, m at next level, right associativity).
Notation "m ;; k" := (bind m (λ _, k))
  (at level 100, right associativity).

Section Client.
Context `{Imports}.

(** ** State and effects *)

Definition setStore (s : AppStore) (w : World) : World :=
  {| store := s; mutex := mutex w; microtasks := microtasks w;
     listeners := listeners w; observers := observers w; trace := trace w |}.

Definition setMutex (m : Mutex) (w : World) : World :=
  {| store := store w; mutex := m; microtasks := microtasks w;
     listeners := listeners w; observers := observers w; trace := trace w |}.

Definition setMicrotasks (js : list Job) (w : World) : World :=
  {| store := store w; mutex := mutex w; microtasks := js;
     listeners := listeners w; observers := observers w; trace := trace w |}.

Definition schedule (j : Job) (w : World) : World :=
  setMicrotasks (microtasks w ++ [j]) w.

Definition emit (e : Event) (w : World) : World :=
  {| store := store w; mutex := mutex w; microtasks := microtasks w;
     listeners := listeners w; observers := observers w;
     trace := trace w ++ [e] |}.

Definition addListener (l : Listener) (w : World) : World :=
  {| store := store w; mutex := mutex w; microtasks := microtasks w;
     listeners := listeners w ++ [l]; observers := observers w;
     trace := trace w |}.

Definition addObserver (o : Observer) (w : World) : World :=
  {| store := store w; mutex := mutex w; microtasks := microtasks w;
     listeners := listeners w; observers := observers w ++ [o];
     trace := trace w |}.

(** *** async-mutex *)

(** [isLocked()]: [this._value <= 0]. *)
Definition isLocked (m : Mutex) : bool := (value m <=? 0)%Z.

(** [_dispatch()]: hands the lock to the first waiter, whose continuation
    becomes a microtask. *)
Definition dispatch (w : World) : World :=
  match queue (mutex w) with
  | [] => w
  | k :: q =>
      emit Locked
        (schedule (RunWorker k)
           (setMutex {| value := value (mutex w) - 1; queue := q |} w))
  end.

(** [acquire()]: queue the caller, and dispatch at once when the lock was
    free. *)
Definition acquire (k : Worker) (w : World) : World :=
  let locked := isLocked (mutex w) in
  let w' := setMutex {| value := value (mutex w);
                        queue := queue (mutex w) ++ [k] |} w in
  if locked then w' else dispatch w'.

(** The releaser: [_value++] and [_dispatch()]. *)
Definition release (w : World) : World :=
  dispatch
    (emit Unlocked
       (setMutex {| value := value (mutex w) + 1;
                    queue := queue (mutex w) |} w)).

(** [runExclusive(callback)] is an [async] function: it runs [acquire]
    synchronously, stops at the [await] and returns a pending promise.
    The worker runs later, in the microtask [RunWorker]. *)
Definition runExclusive (_ : MutexRef) (k : Worker) : Js unit :=
  effect (acquire k).

(** *** The observers of [store.config] *)

(** The handler of [registerRendererConfigIpc]:
    [!configLock.isLocked() && ipcRenderer.send('config-update', change)]. *)
Definition rendererConfigHandler (_ : MutexRef) (c : SerializedChange)
    (w : World) : World :=
  if negb (isLocked (mutex w)) then emit (Sent Ipc (ConfigUpdate c)) w else w.

(** The handler of [registerWebsocketConfigListener]:
    [!configLock.isLocked() && ws.emit('config-update', change)]. *)
Definition websocketConfigHandler (_ : MutexRef) (c : SerializedChange)
    (w : World) : World :=
  if negb (isLocked (mutex w)) then emit (Sent Ws (ConfigUpdate c)) w else w.

Definition runObserver (o : Observer) (c : SerializedChange) : World → World :=
  match o with
  | ConfigObserver Ipc l => rendererConfigHandler l c
  | ConfigObserver Ws l => websocketConfigHandler l c
  end.

(** Every observed change is reported to every registered handler, in
    mutation order. *)
Definition notify (cs : list SerializedChange) (w : World) : World :=
  foldl (λ w c, foldl (λ w o, runObserver o c w) w (observers w)) w cs.

(** A mutation of the store, with the notifications it triggers. *)
Definition mutate (s' : AppStore) (w : World) : World :=
  notify (observed (store w) s') (setStore s' w).

(** *** Imported operations *)

Definition callApplyChanges (c : SerializedChange) : Js unit :=
  λ w, let '(r, s') := applyChanges (store w) c in
       (r, emit (Applied c) (mutate s' w)).

Definition callDeserialize (data : Wire) : Js AppStore :=
  λ w, match deserialize data with
       | Some s => (Returned s, w)
       | None => (Thrown, w)
       end.

(** mobx's [set(obj, values)]: [for (let key in values) set(obj, key,
    values[key])]. *)
Definition mobx_set (obj values : AppStore) : AppStore :=
  map_fold (λ key v acc, <[key := v]> acc) obj values.

Definition set (values : AppStore) : Js unit :=
  effect (λ w, emit (Installed values) (mutate (mobx_set (store w) values) w)).

Definition ipcSend (m : Message) : Js unit := effect (emit (Sent Ipc m)).

(** [done?.()] *)
Definition optionalCall (done : option AckFn) : Js unit :=
  match done with
  | Some d => effect (emit (Acked d))
  | None => ret ()
  end.

(** [s.startsWith(p)] *)
Definition startsWith (s p : string) : bool := String.prefix p s.

(** ** client.ts *)

Definition applyConfigLockedChange (c : SerializedChange)
    (configLock : option MutexRef) : Js unit :=
  match configLock with
  | Some l =>
      if startsWith (path c) "config"
      then runExclusive l (ApplyWorker c)
      else callApplyChanges c
  | None => callApplyChanges c
  end.

(** The listener of [registerRendererIpc] for 'store-update'. *)
Definition ipcStoreUpdate (configLock : MutexRef) (c : SerializedChange)
    : Js unit :=
  applyConfigLockedChange c (Some configLock) ;;
  ipcSend StoreUpdateDone.

(** The listener of [registerRendererIpc] for 'store-init';
    [event.sender] is the renderer's own [ipcRenderer].  mobx's [action]
    only batches reactions; the observers of [observeStore] are still
    called at each mutation. *)
Definition ipcStoreInit (data : Wire) : Js unit :=
  snapshot <- callDeserialize data ;;
  set snapshot ;;
  ipcSend StoreInitDone.

Definition registerRendererIpc (configLock : MutexRef) : Js unit :=
  effect (addListener (IpcStoreUpdate configLock)) ;;
  effect (addListener IpcStoreInit) ;;
  ipcSend StoreSubscribe.

Definition registerRendererConfigIpc (configLock : MutexRef) : Js unit :=
  effect (addObserver (ConfigObserver Ipc configLock)).

(** The listener of [registerWebsocketListener] for 'store-update'. *)
Definition wsStoreUpdate (configLock : option MutexRef)
    (c : SerializedChange) (done : option AckFn) : Js unit :=
  applyConfigLockedChange c configLock ;;
  optionalCall done.

(** The listener of [registerWebsocketListener] for 'store-init'. *)
Definition wsStoreInit (data : Wire) (done : option AckFn) : Js unit :=
  snapshot <- callDeserialize data ;;
  set snapshot ;;
  optionalCall done.

Definition registerWebsocketListener (configLock : option MutexRef)
    : Js unit :=
  effect (addListener (WsStoreUpdate configLock)) ;;
  effect (addListener WsStoreInit).

Definition registerWebsocketConfigListener (configLock : MutexRef)
    : Js unit :=
  effect (addObserver (ConfigObserver Ws configLock)).

(** ** The event loop *)

(** One microtask.  [RunWorker] is the rest of [runExclusive] after the
    lock was handed over: [try { return await callback() } finally {
    release() }].  A worker that throws reaches the [finally] at once and
    the promise rejects; one that returns is awaited, so the [finally]
    runs in a later microtask. *)
Definition runJob (j : Job) (w : World) : World :=
  match j with
  | RunWorker (ApplyWorker c) =>
      match callApplyChanges c w with
      | (Returned _, w') => schedule Release w'
      | (Thrown, w') => emit Rejected (release w')
      end
  | Release => release w
  end.

Fixpoint runJobs (fuel : nat) (w : World) : World :=
  match fuel with
  | O => w
  | S fuel' =>
      match microtasks w with
      | [] => w
      | j :: js => runJobs fuel' (runJob j (setMicrotasks js w))
      end
  end.

(** Steps still owed by a job: a worker is followed by its release. *)
Definition jobCost (j : Job) : nat :=
  match j with
  | RunWorker _ => 2
  | Release => 1
  end.

Fixpoint jobsCost (js : list Job) : nat :=
  match js with
  | [] => 0
  | j :: js' => jobCost j + jobsCost js'
  end.

Definition budget (w : World) : nat :=
  jobsCost (microtasks w) + 2 * length (queue (mutex w)).

(** Run the microtask queue until it is empty. *)
Definition settle (w : World) : World := runJobs (budget w) w.

(** Messages a channel delivers to this client. *)
Inductive Incoming : Type :=
| StoreUpdate (c : SerializedChange)
| StoreInit (data : Wire).

(** The body of a registered listener for a message on its transport and
    of its name; [None] when the listener is registered for something
    else.  Electron passes no acknowledgement function; socket.io passes
    the sender's, when the sender asked for one. *)
Definition listenerBody (l : Listener) (t : Transport) (m : Incoming)
    (done : option AckFn) : option (Js unit) :=
  match l, t, m with
  | IpcStoreUpdate configLock, Ipc, StoreUpdate c =>
      Some (ipcStoreUpdate configLock c)
  | IpcStoreInit, Ipc, StoreInit data => Some (ipcStoreInit data)
  | WsStoreUpdate configLock, Ws, StoreUpdate c =>
      Some (wsStoreUpdate configLock c done)
  | WsStoreInit, Ws, StoreInit data => Some (wsStoreInit data done)
  | _, _, _ => None
  end.

(** [emit] of an event emitter: the listeners run in registration order;
    one that throws ends the emit. *)
Fixpoint runListeners (ls : list Listener) (t : Transport) (m : Incoming)
    (done : option AckFn) : Js unit :=
  match ls with
  | [] => ret ()
  | l :: ls' =>
      match listenerBody l t m done with
      | Some body => body ;; runListeners ls' t m done
      | None => runListeners ls' t m done
      end
  end.

(** One task: run synchronous code to its end, report what it threw, then
    empty the microtask queue. *)
Definition task (body : Js unit) (w : World) : World :=
  match body w with
  | (Returned _, w') => settle w'
  | (Thrown, w') => settle (emit Uncaught w')
  end.

(** The arrival of a message. *)
Definition deliver (t : Transport) (m : Incoming) (done : option AckFn)
    (w : World) : World :=
  task (runListeners (listeners w) t m done) w.

(** Messages arriving one after the other, each handled in its own
    task. *)
Fixpoint deliverAll (ms : list (Transport * Incoming * option AckFn))
    (w : World) : World :=
  match ms with
  | [] => w
  | (t, m, done) :: ms' => deliverAll ms' (deliver t m done w)
  end.

(** A fresh process: a replica [s], a free lock, nothing registered. *)
Definition freeMutex : Mutex := {| value := 1; queue := [] |}.

Definition newWorld (s : AppStore) : World :=
  {| store := s; mutex := freeMutex; microtasks := []; listeners := [];
     observers := []; trace := [] |}.

(** The state between two tasks when only this client uses the lock. *)
Definition idle (w : World) : Prop :=
  mutex w = freeMutex ∧ microtasks w = [].

(** The world with more events recorded. *)
Definition extend (es : list Event) (w : World) : World :=
  {| store := store w; mutex := mutex w; microtasks := microtasks w;
     listeners := listeners w; observers := observers w;
     trace := trace w ++ es |}.


Definition transportOf (o : Observer) : Transport :=
  match o with ConfigObserver t _ => t end.

(** The 'config-update' messages that report the changes [cs] to the
    observers [os] when nothing holds them back. *)
Definition emissions (cs : list SerializedChange) (os : list Observer)
    : list Event :=
  flat_map (λ c, map (λ o, Sent (transportOf o) (ConfigUpdate c)) os) cs.

(** What the observers add to the trace while the store of [w] becomes
    [s']. *)
Definition reported (w : World) (s' : AppStore) : list Event :=
  if isLocked (mutex w) then []
  else emissions (observed (store w) s') (observers w).

(** Between tasks the lock is free; within a task it is held exactly
    while one continuation of [runExclusive] is pending. *)
Definition balanced (w : World) : Prop :=
  match microtasks w with
  | [] => mutex w = freeMutex
  | [_] => value (mutex w) = 0%Z
  | _ => False
  end.

(** Synchronous code that keeps the lock and the microtask queue in
    step. *)
Definition keepsBalance {A : Type} (m : Js A) : Prop :=
  ∀ w, balanced w → balanced (m w).2.

(** Acknowledgements of either transport. *)
Definition isAck (e : Event) : bool :=
  match e with
  | Acked _ | Sent _ StoreUpdateDone | Sent _ StoreInitDone => true
  | _ => false
  end.


(** 'config-update' messages. *)
Definition isConfigUpdate (e : Event) : bool :=
  match e with
  | Sent _ (ConfigUpdate _) => true
  | _ => false
  end.

(** The changes [applyChanges] was run on, in the order it was run. *)
Definition applied (es : list Event) : list SerializedChange :=
  flat_map (λ e, match e with Applied c => [c] | _ => [] end) es.

(** The change a message carries, if it carries one. *)
Definition changeOf (m : Incoming) : list SerializedChange :=
  match m with
  | StoreUpdate c => [c]
  | StoreInit _ => []
  end.

(** What a message does to a store when it is handled on the spot: a
    change is applied, a snapshot that decodes is assigned property by
    property, one that does not decode is dropped. *)
Definition replicaStep (s : AppStore) (m : Incoming) : AppStore :=
  match m with
  | StoreUpdate c => (applyChanges s c).2
  | StoreInit data =>
      match deserialize data with
      | Some snapshot => mobx_set s snapshot
      | None => s
      end
  end.

(** The store after the changes [cs] are applied in turn. *)
Definition applyAll (s : AppStore) (cs : list SerializedChange) : AppStore :=
  foldl (λ s c, (applyChanges s c).2) s cs.

(** What is recorded while the lock goes from worker to worker: each
    change is applied, the lock is released and handed to the next waiter
    if there is one, and a worker that threw rejects its promise. *)
Fixpoint lockedEvents (s : AppStore) (cs : list SerializedChange)
    : list Event :=
  match cs with
  | [] => []
  | c :: cs' =>
      Applied c :: Unlocked ::
      match cs' with [] => [] | _ :: _ => [Locked] end ++
      match (applyChanges s c).1 with
      | Returned _ => []
      | Thrown => [Rejected]
      end ++
      lockedEvents (applyChanges s c).2 cs'
  end.

(** A statement run [k] times in a row. *)
Fixpoint times (k : nat) (m : Js unit) : Js unit :=
  match k with
  | O => ret ()
  | S k' => m ;; times k' m
  end.

(** What happens to a client during its life: the application calls one
    of the four registration functions, or a message arrives.  Each is a
    task of its own. *)
Inductive Call : Type :=
| CallRegisterRendererIpc (configLock : MutexRef)
| CallRegisterRendererConfigIpc (configLock : MutexRef)
| CallRegisterWebsocketListener (configLock : option MutexRef)
| CallRegisterWebsocketConfigListener (configLock : MutexRef)
| Receive (t : Transport) (m : Incoming) (done : option AckFn).

Definition call (k : Call) (w : World) : World :=
  match k with
  | CallRegisterRendererIpc l => task (registerRendererIpc l) w
  | CallRegisterRendererConfigIpc l => task (registerRendererConfigIpc l) w
  | CallRegisterWebsocketListener l => task (registerWebsocketListener l) w
  | CallRegisterWebsocketConfigListener l =>
      task (registerWebsocketConfigListener l) w
  | Receive t m done => deliver t m done w
  end.

Definition run (ks : list Call) (w : World) : World :=
  foldl (λ w k, call k w) w ks.

End Client.

(** ** Path keys

    The config subtree as the spec speaks of it, to compare the test of
    [applyConfigLockedChange] with: a path is a sequence of keys, written
    in the path string with a separator between them, and it lies in the
    config subtree when its first key is [config]. *)
Fixpoint firstKey (sep : ascii) (p : string) : string :=
  match p with
  | EmptyString => EmptyString
  | String a p' =>
      if Ascii.eqb a sep then EmptyString else String a (firstKey sep p')
  end.

Definition underConfig (sep : ascii) (p : string) : bool :=
  String.eqb (firstKey sep p) "config".

(** ** Instances of the store class

    [store: AppStore] and the result of [deserialize(AppStore, data)] are
    both instances of the class [AppStore]: objects with the properties
    the class declares, whatever their values.  [fields] stands for the
    properties of the class, whose declaration is not in these sources. *)
Definition instanceOf `{Schema} (fields : gset string) (s : AppStore) : Prop :=
  dom s = fields.

(** ** The snapshot codec *)

(** Modelled from the spec: the host code that answers 'store-subscribe'
    with 'store-init' and the schema serializr works from are not in
    these sources.  The spec's [snapshot(Store) -> Wire] is a complete,
    self-describing serialisation of the store: here the list of its
    properties, each with its value. *)
Definition serialize {V : Type} (s : gmap string V) : list (string * V) :=
  map_to_list s.

(** Modelled from the spec: [restore(Wire) -> Store-shaped data] rebuilds
    the object and fails when the payload cannot be resolved against the
    known schema: a property given twice, a property the class does not
    have, or a property of the class that is missing. *)
Definition deserializeAs {V : Type} (fields : gset string)
    (wire : list (string * V)) : option (gmap string V) :=
  if decide (NoDup wire.*1 ∧ list_to_set wire.*1 = fields)
  then Some (list_to_map wire)
  else None.

(** The client with this codec for its [deserialize]; [applyChanges] and
    the observer stay as they are given. *)
Definition codecSchema (V P : Type) : Schema :=
  {| Value := V; Payload := P; Wire := list (string * V) |}.

Definition codecImports (V P : Type) (fields : gset string)
    (apply : gmap string V → @SerializedChange (codecSchema V P) →
             Outcome unit * gmap string V)
    (obs : gmap string V → gmap string V →
           list (@SerializedChange (codecSchema V P)))
    : @Imports (codecSchema V P) :=
  @Build_Imports (codecSchema V P) apply (deserializeAs fields) obs.

(** ** A small instance

    A flat store of integers, used to run the definitions: a change sets
    the property named by its path and fails on a negative value, the
    wire format of a snapshot is the list of its properties, and the
    observer of the config subtree reports the properties under [config]
    whose value changed. *)
Module Demo.

#[export] Instance schema : Schema :=
  {| Value := Z; Payload := Z; Wire := list (string * Z) |}.

Definition demoApply (s : gmap string Z) (c : SerializedChange)
    : Outcome unit * gmap string Z :=
  if (change c <? 0)%Z then (Thrown, s)
  else (Returned (), <[path c := change c]> s).

Definition demoDeserialize (data : list (string * Z))
    : option (gmap string Z) :=
  Some (list_to_map data).

Definition changed (s : gmap string Z) (kv : string * Z) : bool :=
  String.prefix "config" kv.1 && negb (bool_decide (s !! kv.1 = Some kv.2)).

Definition demoObserved (s s' : gmap string Z) : list SerializedChange :=
  List.map (λ kv : string * Z, {| path := kv.1; change := kv.2 |})
    (List.filter (changed s) (map_to_list s')).

#[export] Instance imports : Imports :=
  {| applyChanges := demoApply;
     deserialize := demoDeserialize;
     observed := demoObserved |}.

Definition volume (v : Z) : SerializedChange :=
  {| path := "config/volume"; change := v |}.

Definition playlist (v : Z) : SerializedChange :=
  {| path := "playlist"; change := v |}.

Definition configuration (v : Z) : SerializedChange :=
  {| path := "configuration"; change := v |}.

(** A renderer window with both registrations of client.ts. *)
Definition renderer (s : gmap string Z) : World :=
  (registerRendererConfigIpc TheConfigLock
     (registerRendererIpc TheConfigLock (newWorld s)).2).2.

End Demo.

(** The same store with a stricter decoder: a snapshot that holds a
    negative value does not deserialize. *)
Module Strict.
Import Demo.

Definition strictDeserialize (data : list (string * Z))
    : option (gmap string Z) :=
  if forallb (λ kv : string * Z, (0 <=? kv.2)%Z) data
  then Some (list_to_map data)
  else None.

Definition imports : Imports :=
  {| applyChanges := demoApply;
     deserialize := strictDeserialize;
     observed := demoObserved |}.

End Strict.

(** * Properties *)

(** Unfold the state updates down to records. *)
Ltac world_simpl :=
  cbv beta iota zeta delta
    [emit extend schedule setStore setMutex setMicrotasks addListener
     addObserver release dispatch acquire isLocked freeMutex
     store mutex microtasks listeners observers trace value queue
     fst snd Z.leb Z.compare Z.add Z.sub Z.opp Z.pos_sub Pos.pred_double
     Pos.add Pos.succ Pos.compare Pos.compare_cont].

Section ClientFacts.
Context `{Imports}.

(** ** mobx's [set] *)

Lemma mobx_set_union (obj values : AppStore) :
  mobx_set obj values = values ∪ obj.
Proof.
  unfold mobx_set.
  apply (map_fold_weak_ind (λ r m, r = m ∪ obj)).
  - by rewrite (left_id_L ∅ (∪)).
  - intros key v m r _ ->. by rewrite insert_union_l.
Qed.

Lemma mobx_set_assigned (obj values : AppStore) key v :
  values !! key = Some v → mobx_set obj values !! key = Some v.
Proof. rewrite mobx_set_union. apply lookup_union_Some_l. Qed.

Lemma mobx_set_kept (obj values : AppStore) key :
  values !! key = None → mobx_set obj values !! key = obj !! key.
Proof. rewrite mobx_set_union. apply lookup_union_r. Qed.

Lemma mobx_set_overwrite (obj values : AppStore) :
  dom obj ⊆ dom values → mobx_set obj values = values.
Proof.
  intros Hdom. rewrite mobx_set_union. apply map_eq. intros key.
  destruct (values !! key) as [v|] eqn:Hv.
  - by apply lookup_union_Some_l.
  - rewrite lookup_union_r by done.
    apply not_elem_of_dom. apply not_elem_of_dom in Hv. set_solver.
Qed.

(** ** Worlds *)

Lemma emit_extend e w : emit e w = extend [e] w.
Proof. done. Qed.

Lemma extend_extend es1 es2 w :
  extend es2 (extend es1 w) = extend (es1 ++ es2) w.
Proof. unfold extend. simpl. by rewrite app_assoc. Qed.

Lemma extend_nil w : extend [] w = w.
Proof. destruct w. unfold extend. simpl. by rewrite app_nil_r. Qed.

(** ** The observers *)

Lemma runObserver_spec o c w :
  runObserver o c w =
  if isLocked (mutex w) then w
  else extend [Sent (transportOf o) (ConfigUpdate c)] w.
Proof.
  destruct o as [[] l]; simpl;
    unfold rendererConfigHandler, websocketConfigHandler;
    by destruct (isLocked (mutex w)).
Qed.

Lemma notify_locked cs w :
  isLocked (mutex w) = true → notify cs w = w.
Proof.
  intros Hl. unfold notify. induction cs as [|c cs IH]; [done|].
  simpl. replace (foldl _ w (observers w)) with w; [done|].
  generalize (observers w). intros os. induction os as [|o os IHo]; [done|].
  simpl. by rewrite runObserver_spec, Hl.
Qed.

Lemma notify_observers_unlocked c os w :
  isLocked (mutex w) = false →
  foldl (λ w o, runObserver o c w) w os =
  extend ((λ o, Sent (transportOf o) (ConfigUpdate c)) <$> os) w.
Proof.
  intros Hl. revert w Hl. induction os as [|o os IH]; intros w Hl; simpl.
  - by rewrite extend_nil.
  - rewrite runObserver_spec, Hl, IH by done. by rewrite extend_extend.
Qed.

Lemma notify_unlocked cs w :
  isLocked (mutex w) = false →
  notify cs w = extend (emissions cs (observers w)) w.
Proof.
  intros Hl. unfold notify, emissions. revert w Hl.
  induction cs as [|c cs IH]; intros w Hl; simpl.
  - by rewrite extend_nil.
  - rewrite notify_observers_unlocked by done.
    rewrite IH by done. simpl. by rewrite extend_extend.
Qed.

Lemma mutate_spec s' w :
  mutate s' w = extend (reported w s') (setStore s' w).
Proof.
  unfold mutate, reported. destruct (isLocked (mutex w)) eqn:Hl.
  - rewrite notify_locked by done. by rewrite extend_nil.
  - by rewrite notify_unlocked.
Qed.

Lemma callApplyChanges_spec c w :
  callApplyChanges c w =
  ((applyChanges (store w) c).1,
   extend (reported w (applyChanges (store w) c).2 ++ [Applied c])
     (setStore (applyChanges (store w) c).2 w)).
Proof.
  unfold callApplyChanges. destruct (applyChanges (store w) c) as [r s'].
  simpl. by rewrite mutate_spec, emit_extend, extend_extend.
Qed.

Lemma set_spec values w :
  set values w =
  (Returned (),
   extend (reported w (mobx_set (store w) values) ++ [Installed values])
     (setStore (mobx_set (store w) values) w)).
Proof.
  unfold set, effect. by rewrite mutate_spec, emit_extend, extend_extend.
Qed.

(** ** Microtasks run out *)

Lemma jobsCost_app js1 js2 :
  jobsCost (js1 ++ js2) = jobsCost js1 + jobsCost js2.
Proof. induction js1 as [|j js1 IH]; simpl; lia. Qed.

Lemma budget_dispatch w : budget (dispatch w) = budget w.
Proof.
  unfold dispatch, budget. destruct (queue (mutex w)) as [|k q] eqn:Hq.
  { by rewrite Hq. }
  simpl. rewrite jobsCost_app. simpl. lia.
Qed.

Lemma budget_release w : budget (release w) = budget w.
Proof. unfold release. by rewrite budget_dispatch. Qed.

Lemma budget_emit e w : budget (emit e w) = budget w.
Proof. done. Qed.

Lemma budget_extend es w : budget (extend es w) = budget w.
Proof. done. Qed.

Lemma budget_setStore s w : budget (setStore s w) = budget w.
Proof. done. Qed.

Lemma budget_schedule j w : budget (schedule j w) = budget w + jobCost j.
Proof. unfold budget. simpl. rewrite jobsCost_app. simpl. lia. Qed.

Lemma budget_setMicrotasks j js w :
  microtasks w = j :: js → budget w = jobCost j + budget (setMicrotasks js w).
Proof. unfold budget. intros ->. simpl. lia. Qed.

Lemma budget_runJob j js w :
  microtasks w = j :: js → budget (runJob j (setMicrotasks js w)) < budget w.
Proof.
  intros Hj. rewrite (budget_setMicrotasks j js w Hj).
  generalize (setMicrotasks js w). clear Hj. intros v.
  destruct j as [[c]|]; unfold runJob.
  - rewrite callApplyChanges_spec.
    destruct (applyChanges (store v) c) as [[[]|] s']; cbn [fst snd].
    + rewrite budget_schedule, budget_extend, budget_setStore. simpl. lia.
    + rewrite budget_emit, budget_release, budget_extend, budget_setStore.
      simpl. lia.
  - rewrite budget_release. simpl. lia.
Qed.

Lemma runJobs_quiescent n w :
  (budget w ≤ n)%nat → microtasks (runJobs n w) = [].
Proof.
  revert w. induction n as [|n IH]; intros w Hn; simpl.
  - unfold budget in Hn. destruct (microtasks w) as [|[|] js]; [done|..];
      simpl in Hn; lia.
  - destruct (microtasks w) as [|j js] eqn:Hj; [done|].
    apply IH. pose proof (budget_runJob j js w Hj). lia.
Qed.

(** The microtask queue is empty when a task ends. *)
Lemma settle_quiescent w : microtasks (settle w) = [].
Proof. by apply runJobs_quiescent. Qed.

(** ** The lock is free between tasks *)

Lemma idle_balanced w : idle w ↔ balanced w ∧ microtasks w = [].
Proof.
  unfold idle, balanced. split.
  - intros [Hm Hj]. by rewrite Hj.
  - intros [Hb Hj]. by rewrite Hj in Hb.
Qed.

Lemma balanced_emit e w : balanced (emit e w) ↔ balanced w.
Proof. done. Qed.

Lemma balanced_extend es w : balanced (extend es w) ↔ balanced w.
Proof. done. Qed.

Lemma balanced_setStore s w : balanced (setStore s w) ↔ balanced w.
Proof. done. Qed.

Lemma balanced_acquire k w : balanced w → balanced (acquire k w).
Proof.
  unfold balanced, acquire, dispatch, isLocked.
  destruct (microtasks w) as [|j [|j' js]] eqn:Hj; [| |done].
  - intros ->. simpl. by rewrite Hj.
  - intros ->. simpl. by rewrite Hj.
Qed.

Lemma balanced_release w :
  microtasks w = [] → value (mutex w) = 0%Z → balanced (release w).
Proof.
  intros Hj Hv. unfold release, dispatch. simpl.
  destruct (queue (mutex w)) as [|k q] eqn:Hq.
  - unfold balanced. simpl. rewrite Hj. unfold freeMutex.
    rewrite Hv. by f_equal.
  - unfold balanced. simpl. rewrite Hj. simpl. lia.
Qed.

Lemma balanced_runJob j w :
  balanced w → microtasks w = [j] → balanced (runJob j (setMicrotasks [] w)).
Proof.
  unfold balanced at 1. intros Hb Hj. rewrite Hj in Hb.
  destruct j as [[c]|]; unfold runJob.
  - rewrite callApplyChanges_spec.
    destruct (applyChanges _ c) as [[[]|] s']; cbn [fst snd].
    + unfold balanced. simpl. done.
    + apply balanced_emit, balanced_release; done.
  - by apply balanced_release.
Qed.

Lemma balanced_runJobs n w : balanced w → balanced (runJobs n w).
Proof.
  revert w. induction n as [|n IH]; intros w Hb; simpl; [done|].
  destruct (microtasks w) as [|j js] eqn:Hj; [done|].
  assert (js = []) as ->.
  { unfold balanced in Hb. rewrite Hj in Hb. by destruct js. }
  by apply IH, balanced_runJob.
Qed.

Lemma keepsBalance_ret {A} (a : A) : keepsBalance (ret a).
Proof. by intros w. Qed.

Lemma keepsBalance_bind {A B} (m : Js A) (k : A → Js B) :
  keepsBalance m → (∀ a, keepsBalance (k a)) → keepsBalance (bind m k).
Proof.
  intros Hm Hk w Hb. unfold bind. specialize (Hm w Hb).
  destruct (m w) as [[a|] w']; simpl in *; [by apply Hk | done].
Qed.

Lemma keepsBalance_emit e : keepsBalance (effect (emit e)).
Proof. by intros w. Qed.

Lemma keepsBalance_callApplyChanges c : keepsBalance (callApplyChanges c).
Proof. intros w Hb. by rewrite callApplyChanges_spec. Qed.

Lemma keepsBalance_set values : keepsBalance (set values).
Proof. intros w Hb. by rewrite set_spec. Qed.

Lemma keepsBalance_callDeserialize data : keepsBalance (callDeserialize data).
Proof. intros w Hb. unfold callDeserialize. by destruct (deserialize data). Qed.

Lemma keepsBalance_optionalCall done : keepsBalance (optionalCall done).
Proof. destruct done; [apply keepsBalance_emit | apply keepsBalance_ret]. Qed.

Lemma keepsBalance_applyConfigLockedChange c configLock :
  keepsBalance (applyConfigLockedChange c configLock).
Proof.
  unfold applyConfigLockedChange.
  destruct configLock as [l|]; [|apply keepsBalance_callApplyChanges].
  destruct (startsWith (path c) "config");
    [|apply keepsBalance_callApplyChanges].
  intros w Hb. by apply balanced_acquire.
Qed.

Lemma keepsBalance_listenerBody l t m done body :
  listenerBody l t m done = Some body → keepsBalance body.
Proof.
  destruct l, t, m; intros [= <-];
    unfold ipcStoreUpdate, ipcStoreInit, wsStoreUpdate, wsStoreInit, ipcSend;
    repeat (apply keepsBalance_bind; [|intros ?]);
    auto using keepsBalance_applyConfigLockedChange, keepsBalance_emit,
      keepsBalance_callDeserialize, keepsBalance_set,
      keepsBalance_optionalCall.
Qed.

Lemma keepsBalance_runListeners ls t m done :
  keepsBalance (runListeners ls t m done).
Proof.
  induction ls as [|l ls IH]; simpl; [apply keepsBalance_ret|].
  destruct (listenerBody l t m done) as [body|] eqn:Hbody; [|done].
  apply keepsBalance_bind; [|done].
  by eapply keepsBalance_listenerBody.
Qed.

(** A task that starts with the lock free ends with the lock free. *)
Lemma idle_task body w : keepsBalance body → idle w → idle (task body w).
Proof.
  intros Hbody Hw. apply idle_balanced in Hw as [Hb _].
  specialize (Hbody w Hb). apply idle_balanced. unfold task.
  destruct (body w) as [[[]|] w']; simpl in Hbody;
    (split; [by apply balanced_runJobs | apply settle_quiescent]).
Qed.

(** Whatever message arrives and whatever is registered, the lock is free
    again when the message has been handled. *)
Lemma idle_deliver t m done w : idle w → idle (deliver t m done w).
Proof. apply idle_task, keepsBalance_runListeners. Qed.

Lemma idle_deliverAll ms w : idle w → idle (deliverAll ms w).
Proof.
  revert w. induction ms as [|[[t m] ack] ms IH]; intros w Hw; [done|].
  simpl. by apply IH, idle_deliver.
Qed.

(** ** A change applied through the lock *)

(** What [runExclusive] leaves behind when the lock is free. *)
Lemma acquire_idle k w :
  idle w →
  acquire k w =
  extend [Locked]
    (setMicrotasks [RunWorker k] (setMutex {| value := 0; queue := [] |} w)).
Proof.
  intros [Hm Hj]. destruct w as [st mu js ls os tr]. simpl in Hm, Hj. subst.
  reflexivity.
Qed.

(** The microtasks of a lock-gated apply, started with the lock free:
    whatever synchronous code recorded in between ([es]), the change is
    applied with the lock held and the lock is then released. *)
Lemma settle_locked_apply c es w :
  idle w →
  settle (extend es (acquire (ApplyWorker c) w)) =
  extend
    (Locked :: es ++ Applied c :: Unlocked ::
       match (applyChanges (store w) c).1 with
       | Returned _ => []
       | Thrown => [Rejected]
       end)
    (setStore (applyChanges (store w) c).2 w).
Proof.
  intros Hw. rewrite acquire_idle by done. destruct Hw as [Hm Hj].
  destruct w as [st mu js ls os tr]. simpl in Hm, Hj. subst.
  unfold settle, budget. cbn [microtasks mutex queue extend setMicrotasks
    setMutex jobsCost jobCost length Nat.add Nat.mul runJobs store
    listeners observers trace].
  unfold runJob. rewrite callApplyChanges_spec.
  cbn [microtasks mutex queue extend setMicrotasks setMutex store
    listeners observers trace fst snd setStore].
  unfold reported, isLocked.
  cbn [microtasks mutex queue extend setMicrotasks setMutex store
    listeners observers trace fst snd setStore value Z.leb Z.compare].
  destruct (applyChanges st c) as [[[]|] s']; cbn [fst snd].
  - world_simpl. f_equal. by rewrite <- !app_assoc.
  - world_simpl. f_equal. by rewrite <- !app_assoc.
Qed.

(** A task that schedules nothing ends where its synchronous code ends. *)
Lemma settle_quiet w : microtasks w = [] → settle w = w.
Proof.
  intros Hj. unfold settle. destruct (budget w); simpl; by rewrite ?Hj.
Qed.

(** ** The history does not steer the execution *)







(** ** The config test *)

Lemma startsWith_spec (s p : string) :
  startsWith s p = true ↔ ∃ rest, s = p +:+ rest.
Proof.
  unfold startsWith. revert s. induction p as [|a p IH]; intros s; simpl.
  - split; [by exists s | by destruct s].
  - destruct s as [|b s]; simpl.
    + split; [done | intros [rest Hrest]; discriminate].
    + destruct (ascii_dec a b) as [->|Hab].
      * rewrite IH. split; intros [rest Hrest]; exists rest.
        -- by rewrite Hrest.
        -- change (String b s = String b (p +:+ rest)) in Hrest. congruence.
      * split; [done | intros [rest Hrest]].
        change (String b s = String a (p +:+ rest)) in Hrest. congruence.
Qed.

Lemma applyConfigLockedChange_locked c l w :
  startsWith (path c) "config" = true →
  applyConfigLockedChange c (Some l) w =
  (Returned (), acquire (ApplyWorker c) w).
Proof. intros Hp. unfold applyConfigLockedChange. by rewrite Hp. Qed.

Lemma applyConfigLockedChange_direct c configLock w :
  configLock = None ∨ startsWith (path c) "config" = false →
  applyConfigLockedChange c configLock w = callApplyChanges c w.
Proof.
  unfold applyConfigLockedChange. intros [->| ->]; [done|].
  by destruct configLock.
Qed.

(** The whole task of a lock-gated apply, started with the lock free. *)
Lemma task_locked_apply c l w :
  idle w → startsWith (path c) "config" = true →
  task (applyConfigLockedChange c (Some l)) w =
  extend
    (Locked :: Applied c :: Unlocked ::
       match (applyChanges (store w) c).1 with
       | Returned _ => []
       | Thrown => [Rejected]
       end)
    (setStore (applyChanges (store w) c).2 w).
Proof.
  intros Hw Hp. unfold task. rewrite applyConfigLockedChange_locked by done.
  rewrite <- (extend_nil (acquire _ w)). by rewrite settle_locked_apply.
Qed.

(** The whole task of a direct apply. *)
Lemma task_direct_apply c w :
  idle w →
  task (callApplyChanges c) w =
  extend
    (reported w (applyChanges (store w) c).2 ++ Applied c ::
       match (applyChanges (store w) c).1 with
       | Returned _ => []
       | Thrown => [Uncaught]
       end)
    (setStore (applyChanges (store w) c).2 w).
Proof.
  intros [_ Hj]. unfold task. rewrite callApplyChanges_spec.
  destruct (applyChanges (store w) c) as [[[]|] s']; cbn [fst snd].
  - by rewrite settle_quiet.
  - rewrite settle_quiet by done. rewrite emit_extend, extend_extend.
    by rewrite <- app_assoc.
Qed.

(** ** The listeners *)

Lemma ipcStoreUpdate_spec l c w :
  ipcStoreUpdate l c w =
  match applyConfigLockedChange c (Some l) w with
  | (Returned _, w') => (Returned (), extend [Sent Ipc StoreUpdateDone] w')
  | (Thrown, w') => (Thrown, w')
  end.
Proof.
  unfold ipcStoreUpdate, bind.
  by destruct (applyConfigLockedChange c (Some l) w) as [[[]|] w'].
Qed.

Lemma wsStoreUpdate_spec configLock c done w :
  wsStoreUpdate configLock c done w =
  match applyConfigLockedChange c configLock w with
  | (Returned _, w') =>
      (Returned (),
       extend match done with Some d => [Acked d] | None => [] end w')
  | (Thrown, w') => (Thrown, w')
  end.
Proof.
  unfold wsStoreUpdate, bind.
  destruct (applyConfigLockedChange c configLock w) as [[[]|] w']; [|done].
  destruct done as [d|]; simpl; [done|]. by rewrite extend_nil.
Qed.

Lemma ipcStoreInit_spec data w :
  ipcStoreInit data w =
  match deserialize data with
  | Some snapshot =>
      (Returned (),
       extend
         (reported w (mobx_set (store w) snapshot) ++
          [Installed snapshot; Sent Ipc StoreInitDone])
         (setStore (mobx_set (store w) snapshot) w))
  | None => (Thrown, w)
  end.
Proof.
  unfold ipcStoreInit, bind, callDeserialize.
  destruct (deserialize data) as [snapshot|]; [|done].
  rewrite set_spec. unfold ipcSend, effect.
  rewrite emit_extend, extend_extend. by rewrite <- app_assoc.
Qed.

Lemma wsStoreInit_spec data done w :
  wsStoreInit data done w =
  match deserialize data with
  | Some snapshot =>
      (Returned (),
       extend
         (reported w (mobx_set (store w) snapshot) ++
          Installed snapshot ::
          match done with Some d => [Acked d] | None => [] end)
         (setStore (mobx_set (store w) snapshot) w))
  | None => (Thrown, w)
  end.
Proof.
  unfold wsStoreInit, bind, callDeserialize.
  destruct (deserialize data) as [snapshot|]; [|done].
  rewrite set_spec. destruct done as [d|]; simpl; [|done].
  unfold effect. rewrite emit_extend, extend_extend. by rewrite <- app_assoc.
Qed.

(** The task of an IPC 'store-update' for a path that starts with
    [config]: the acknowledgement leaves before the change is applied. *)
Lemma task_ipcStoreUpdate_locked c l w :
  idle w → startsWith (path c) "config" = true →
  task (ipcStoreUpdate l c) w =
  extend
    (Locked :: Sent Ipc StoreUpdateDone :: Applied c :: Unlocked ::
       match (applyChanges (store w) c).1 with
       | Returned _ => []
       | Thrown => [Rejected]
       end)
    (setStore (applyChanges (store w) c).2 w).
Proof.
  intros Hw Hp. unfold task.
  rewrite ipcStoreUpdate_spec, applyConfigLockedChange_locked by done.
  by rewrite settle_locked_apply.
Qed.

Lemma task_wsStoreUpdate_locked c l done w :
  idle w → startsWith (path c) "config" = true →
  task (wsStoreUpdate (Some l) c done) w =
  extend
    (Locked :: match done with Some d => [Acked d] | None => [] end ++
     Applied c :: Unlocked ::
       match (applyChanges (store w) c).1 with
       | Returned _ => []
       | Thrown => [Rejected]
       end)
    (setStore (applyChanges (store w) c).2 w).
Proof.
  intros Hw Hp. unfold task.
  rewrite wsStoreUpdate_spec, applyConfigLockedChange_locked by done.
  by rewrite settle_locked_apply.
Qed.

(** The same for a change that is applied directly and succeeds: the
    acknowledgement follows the apply. *)
Lemma task_ipcStoreUpdate_direct c l w :
  idle w → startsWith (path c) "config" = false →
  (applyChanges (store w) c).1 = Returned () →
  task (ipcStoreUpdate l c) w =
  extend
    (reported w (applyChanges (store w) c).2 ++
     [Applied c; Sent Ipc StoreUpdateDone])
    (setStore (applyChanges (store w) c).2 w).
Proof.
  intros [_ Hj] Hp Hr. unfold task.
  rewrite ipcStoreUpdate_spec, applyConfigLockedChange_direct by auto.
  rewrite callApplyChanges_spec, Hr.
  rewrite settle_quiet by done. rewrite extend_extend.
  by rewrite <- app_assoc.
Qed.

Lemma task_wsStoreUpdate_direct c configLock done w :
  idle w → configLock = None ∨ startsWith (path c) "config" = false →
  (applyChanges (store w) c).1 = Returned () →
  task (wsStoreUpdate configLock c done) w =
  extend
    (reported w (applyChanges (store w) c).2 ++
     Applied c :: match done with Some d => [Acked d] | None => [] end)
    (setStore (applyChanges (store w) c).2 w).
Proof.
  intros [_ Hj] Hp Hr. unfold task.
  rewrite wsStoreUpdate_spec, applyConfigLockedChange_direct by auto.
  rewrite callApplyChanges_spec, Hr.
  rewrite settle_quiet by done. rewrite extend_extend.
  by rewrite <- app_assoc.
Qed.

(** Observers never acknowledge and never touch the lock. *)
Lemma filter_isAck_emissions cs os :
  List.filter isAck (emissions cs os) = [].
Proof.
  unfold emissions. induction cs as [|c cs IH]; [done|].
  simpl. rewrite List.filter_app, IH, app_nil_r. clear IH.
  induction os as [|o os IHo]; simpl; auto.
Qed.


Lemma filter_isAck_reported w s' : List.filter isAck (reported w s') = [].
Proof.
  unfold reported. destruct (isLocked _); [done|].
  apply filter_isAck_emissions.
Qed.


(** C1: while the config lock is held, the handlers registered by
    [registerRendererConfigIpc] and [registerWebsocketConfigListener] emit
    no 'config-update' for an observed change, although the store was
    mutated; a handler emits exactly when [isLocked()] is false at the
    moment the observer invokes it.  Stated for each handler, and for a
    whole mutation of the store with every registered handler notified of
    every observed change: the store does change, and what is emitted is
    nothing under the lock and one 'config-update' per change and handler
    otherwise. *)
Theorem config_update_emitted_iff_unlocked
    (configLock : MutexRef) (c : SerializedChange) (s' : AppStore)
    (w : World) :
  rendererConfigHandler configLock c w =
    (if isLocked (mutex w) then w
     else extend [Sent Ipc (ConfigUpdate c)] w) ∧
  websocketConfigHandler configLock c w =
    (if isLocked (mutex w) then w
     else extend [Sent Ws (ConfigUpdate c)] w) ∧
  store (mutate s' w) = s' ∧
  mutex (mutate s' w) = mutex w ∧
  trace (mutate s' w) =
    trace w ++
    (if isLocked (mutex w) then []
     else emissions (observed (store w) s') (observers w)).
Proof.
  split_and!.
  - apply (runObserver_spec (ConfigObserver Ipc configLock)).
  - apply (runObserver_spec (ConfigObserver Ws configLock)).
  - by rewrite mutate_spec.
  - by rewrite mutate_spec.
  - by rewrite mutate_spec.
Qed.

(** C8: the config test of [applyConfigLockedChange] is a prefix check on
    the path string.  Every change whose path begins with the characters
    [config] goes through the lock, whatever follows them; a path that
    does not begin with them is applied directly.  The path
    [configuration] is outside the config subtree (its first key is not
    [config], whether keys are separated by a slash or by a dot) and is
    routed through the lock all the same. *)
Theorem config_test_is_prefix_check
    (configLock : MutexRef) (c : SerializedChange) (w : World) :
  (∀ rest payload,
     applyConfigLockedChange
       {| path := "config" +:+ rest; change := payload |}
       (Some configLock) w
     = runExclusive configLock
         (ApplyWorker {| path := "config" +:+ rest; change := payload |}) w) ∧
  ((∀ rest, path c ≠ "config" +:+ rest) →
     applyConfigLockedChange c (Some configLock) w = callApplyChanges c w) ∧
  (∀ payload,
     underConfig "/" "configuration" = false ∧
     underConfig "." "configuration" = false ∧
     applyConfigLockedChange
       {| path := "configuration"; change := payload |} (Some configLock) w
     = runExclusive configLock
         (ApplyWorker {| path := "configuration"; change := payload |}) w).
Proof.
  split_and!.
  - intros rest payload. unfold applyConfigLockedChange. simpl.
    assert (startsWith ("config" +:+ rest) "config" = true) as Hp
      by (apply startsWith_spec; by exists rest).
    simpl in Hp. by rewrite Hp.
  - intros Hc. unfold applyConfigLockedChange.
    destruct (startsWith (path c) "config") eqn:Hp; [|done].
    apply startsWith_spec in Hp as [rest Hrest]. by destruct (Hc rest).
  - intros payload. done.
Qed.

(** C2, as the code has it: with a lock and a path that starts with the
    characters [config] the change is handed to [lock.runExclusive]; in
    every other case (no lock, or a path that does not start with
    [config]) it is applied directly and the lock and the microtask queue
    are left alone; on both routes the store ends up as
    [applyChanges(store, change)] leaves it. *)
Theorem applyConfigLockedChange_routes
    (c : SerializedChange) (configLock : option MutexRef) (w : World) :
  (∀ l, configLock = Some l → startsWith (path c) "config" = true →
     applyConfigLockedChange c configLock w
     = runExclusive l (ApplyWorker c) w) ∧
  (configLock = None ∨ startsWith (path c) "config" = false →
     applyConfigLockedChange c configLock w = callApplyChanges c w ∧
     mutex (callApplyChanges c w).2 = mutex w ∧
     microtasks (callApplyChanges c w).2 = microtasks w) ∧
  (idle w →
     store (task (applyConfigLockedChange c configLock) w)
     = (applyChanges (store w) c).2).
Proof.
  split_and!.
  - intros l -> Hp. by rewrite applyConfigLockedChange_locked.
  - intros Hdirect. rewrite applyConfigLockedChange_direct by done.
    by rewrite callApplyChanges_spec.
  - intros Hw.
    destruct configLock as [l|]; [destruct (startsWith (path c) "config") eqn:Hp|].
    + by rewrite task_locked_apply.
    + unfold task. rewrite applyConfigLockedChange_direct by auto.
      fold (task (callApplyChanges c) w). by rewrite task_direct_apply.
    + unfold task. rewrite applyConfigLockedChange_direct by auto.
      fold (task (callApplyChanges c) w). by rewrite task_direct_apply.
Qed.

(** C4: a config change applied through the lock runs with the lock
    held, and the lock is free again right after the apply, whether
    [applyChanges] returns or throws.  From a state with the lock free:
    [runExclusive] takes the lock before the apply starts, the lock is
    still held when the apply ends, the release is the very next thing
    that happens, and the task ends with the lock free.  Whatever
    messages arrive afterwards, the lock is free between them and a later
    config change is applied as well. *)
Theorem config_lock_released_on_every_exit
    (c : SerializedChange) (l : MutexRef) (w : World) :
  idle w → startsWith (path c) "config" = true →
  let w1 := (applyConfigLockedChange c (Some l) w).2 in
  let w2 := (callApplyChanges c (setMicrotasks [] w1)).2 in
  let w3 := task (applyConfigLockedChange c (Some l)) w in
  (isLocked (mutex w1) = true ∧
   microtasks w1 = [RunWorker (ApplyWorker c)] ∧
   trace w1 = trace w ++ [Locked]) ∧
  (isLocked (mutex w2) = true ∧
   trace w2 = trace w ++ [Locked; Applied c]) ∧
  (store w3 = (applyChanges (store w) c).2 ∧
   trace w3 =
     trace w ++ [Locked; Applied c; Unlocked] ++
     match (applyChanges (store w) c).1 with
     | Returned _ => []
     | Thrown => [Rejected]
     end ∧
   isLocked (mutex w3) = false ∧
   idle w3) ∧
  (∀ ms c', startsWith (path c') "config" = true →
     let w4 := deliverAll ms w3 in
     let w5 := task (applyConfigLockedChange c' (Some l)) w4 in
     isLocked (mutex w4) = false ∧
     store w5 = (applyChanges (store w4) c').2 ∧
     Applied c' ∈ trace w5).
Proof.
  intros Hw Hp w1 w2 w3.
  assert (idle w3) as Hw3.
  { apply idle_task; [apply keepsBalance_applyConfigLockedChange | done]. }
  split_and!.
  - subst w1. rewrite applyConfigLockedChange_locked, acquire_idle by done.
    done.
  - subst w1. rewrite applyConfigLockedChange_locked, acquire_idle by done.
    done.
  - subst w1. rewrite applyConfigLockedChange_locked, acquire_idle by done.
    done.
  - subst w2 w1. rewrite callApplyChanges_spec.
    rewrite applyConfigLockedChange_locked, acquire_idle by done. done.
  - subst w2 w1. rewrite callApplyChanges_spec.
    rewrite applyConfigLockedChange_locked, acquire_idle by done.
    unfold reported. world_simpl. by rewrite <- app_assoc.
  - subst w3. by rewrite task_locked_apply.
  - subst w3. by rewrite task_locked_apply.
  - destruct Hw3 as [-> _]. done.
  - done.
  - intros ms c' Hp' w4 w5.
    assert (idle w4) as Hw4 by by apply idle_deliverAll.
    subst w5. rewrite task_locked_apply by done. split_and!.
    + destruct Hw4 as [-> _]. done.
    + done.
    + simpl. rewrite elem_of_app, !elem_of_cons. auto.
Qed.

Lemma bind_ret_unit (m : Js unit) w : bind m (λ _, ret ()) w = m w.
Proof. unfold bind, ret. by destruct (m w) as [[[]|] w']. Qed.

(** C5: on registration the renderer sends 'store-subscribe'; on
    'store-init' it installs the decoded snapshot over its store and then
    replies 'store-init-done'.  The replica and the decoded snapshot are
    both instances of the store class, and the installation is a full
    overwrite: the store that results is exactly the decoded snapshot,
    whatever the replica held before (any two replicas end up with the
    same store).  The acknowledgement comes after the installation and is
    the last thing the task does. *)
Theorem renderer_hydration
    (l : MutexRef) (fields : gset string) (data : Wire)
    (snapshot : AppStore) (w : World) :
  idle w → listeners w = [] → deserialize data = Some snapshot →
  instanceOf fields (store w) → instanceOf fields snapshot →
  let w1 := (registerRendererIpc l w).2 in
  let w2 := deliver Ipc (StoreInit data) None w1 in
  trace w1 = trace w ++ [Sent Ipc StoreSubscribe] ∧
  store w2 = snapshot ∧
  trace w2 =
    trace w1 ++ reported w snapshot ++
    [Installed snapshot; Sent Ipc StoreInitDone] ∧
  (∀ w', idle w' → listeners w' = [] → instanceOf fields (store w') →
     store (deliver Ipc (StoreInit data) None (registerRendererIpc l w').2)
     = store w2).
Proof.
  intros Hw Hl Hdata Hreplica Hsnapshot w1 w2.
  assert (∀ v, idle v → listeners v = [] → instanceOf fields (store v) →
    deliver Ipc (StoreInit data) None (registerRendererIpc l v).2 =
    extend (reported v snapshot ++
            [Installed snapshot; Sent Ipc StoreInitDone])
      (setStore snapshot (registerRendererIpc l v).2)) as Hinstall.
  { intros v [Hm Hj] Hlv Hv. unfold deliver. simpl. rewrite Hlv. simpl.
    unfold task. rewrite bind_ret_unit, ipcStoreInit_spec, Hdata.
    rewrite settle_quiet by done. simpl.
    rewrite mobx_set_overwrite; [done|].
    unfold instanceOf in *. by rewrite Hv, Hsnapshot. }
  subst w2 w1. rewrite Hinstall by done. split_and!; [done..|].
  intros w' Hw' Hl' Hreplica'. by rewrite Hinstall.
Qed.



(** C10: the websocket listeners work without an acknowledgement
    function.  Without one a listener is its apply (or its installation)
    and nothing more: the optional call adds no effect and no error.  So
    the change is applied, the snapshot is installed, the listener
    returns whenever [applyChanges] (or [deserialize]) does, and no
    acknowledgement of any kind is recorded. *)
Theorem websocket_listeners_tolerate_missing_done
    (configLock : option MutexRef) (c : SerializedChange) (data : Wire)
    (w : World) :
  wsStoreUpdate configLock c None w = applyConfigLockedChange c configLock w ∧
  wsStoreInit data None w
  = (snapshot <- callDeserialize data ;; set snapshot) w ∧
  (idle w → (applyChanges (store w) c).1 = Returned () →
     (wsStoreUpdate configLock c None w).1 = Returned () ∧
     store (task (wsStoreUpdate configLock c None) w)
     = (applyChanges (store w) c).2 ∧
     List.filter isAck (trace (task (wsStoreUpdate configLock c None) w))
     = List.filter isAck (trace w)) ∧
  (∀ snapshot, deserialize data = Some snapshot →
     (wsStoreInit data None w).1 = Returned () ∧
     store (wsStoreInit data None w).2 = mobx_set (store w) snapshot ∧
     List.filter isAck (trace (wsStoreInit data None w).2)
     = List.filter isAck (trace w)).
Proof.
  split_and!.
  - unfold wsStoreUpdate. simpl. apply bind_ret_unit.
  - unfold wsStoreInit, bind, callDeserialize.
    by destruct (deserialize data).
  - intros Hw Hr.
    destruct configLock as [l|];
      [destruct (startsWith (path c) "config") eqn:Hp|].
    + rewrite task_wsStoreUpdate_locked by done.
      rewrite wsStoreUpdate_spec, applyConfigLockedChange_locked by done.
      rewrite Hr. simpl. rewrite List.filter_app. simpl.
      by rewrite app_nil_r.
    + rewrite task_wsStoreUpdate_direct by auto.
      rewrite wsStoreUpdate_spec, applyConfigLockedChange_direct by auto.
      rewrite callApplyChanges_spec, Hr. simpl.
      rewrite !List.filter_app, filter_isAck_reported. simpl.
      by rewrite app_nil_r.
    + rewrite task_wsStoreUpdate_direct by auto.
      rewrite wsStoreUpdate_spec, applyConfigLockedChange_direct by auto.
      rewrite callApplyChanges_spec, Hr. simpl.
      rewrite !List.filter_app, filter_isAck_reported. simpl.
      by rewrite app_nil_r.
  - intros snapshot Hdata. rewrite wsStoreInit_spec, Hdata. simpl.
    rewrite !List.filter_app, filter_isAck_reported. simpl.
    by rewrite app_nil_r.
Qed.

End ClientFacts.

Section Hydration.
Context {V P : Type} (fields : gset string).
Context (apply : gmap string V → @SerializedChange (codecSchema V P) →
                 Outcome unit * gmap string V).
Context (obs : gmap string V → gmap string V →
               list (@SerializedChange (codecSchema V P))).

Let hydrationSchema : Schema := codecSchema V P.
Let hydrationImports : Imports := codecImports V P fields apply obs.

(** Restoring a snapshot gives back the store it was taken from. *)
Lemma deserializeAs_serialize (s : gmap string V) :
  dom s = fields → deserializeAs fields (serialize s) = Some s.
Proof.
  intros Hs. unfold deserializeAs, serialize.
  rewrite decide_True.
  - by rewrite list_to_map_to_list.
  - split; [apply NoDup_fst_map_to_list|].
    rewrite <- Hs. apply set_eq. intros key.
    rewrite elem_of_list_to_set, elem_of_dom, list_elem_of_fmap.
    split.
    + intros [[key' v] [-> Hkv]]. apply elem_of_map_to_list in Hkv. eauto.
    + intros [v Hv]. exists (key, v). split; [done|].
      by apply elem_of_map_to_list.
Qed.

(** Whatever is restored is an instance of the class. *)
Lemma deserializeAs_instance (wire : list (string * V)) (s : gmap string V) :
  deserializeAs fields wire = Some s → dom s = fields.
Proof.
  unfold deserializeAs. case_decide as Hwire; [|done].
  intros [= <-]. destruct Hwire as [_ <-]. apply dom_list_to_map_L.
Qed.

(** A payload that names a property twice, or whose properties are not
    those of the class, is refused. *)
Lemma deserializeAs_refuses (wire : list (string * V)) :
  ¬ (NoDup wire.*1 ∧ list_to_set wire.*1 = fields) →
  deserializeAs fields wire = None.
Proof. intros Hwire. unfold deserializeAs. by rewrite decide_False. Qed.

(** C7: the snapshot round trip.  The host serialises its store, the
    peripheral deserialises the payload of 'store-init' and installs it
    over its replica, itself an instance of the store class.  Decoding
    the snapshot gives back the source store, and after the installation
    the replica is equal to the source store as it was when the snapshot
    was taken, on both transports and whatever the replica held. *)
Theorem hydration_restores_source
    (host : gmap string V) (done : option AckFn) (w : World) :
  @instanceOf hydrationSchema fields host →
  instanceOf fields (store w) → idle w →
  @deserialize _ hydrationImports (serialize host) = Some host ∧
  store
    (@task _ hydrationImports
       (@ipcStoreInit _ hydrationImports (serialize host)) w)
  = host ∧
  store
    (@task _ hydrationImports
       (@wsStoreInit _ hydrationImports (serialize host) done) w)
  = host.
Proof.
  intros Hhost Hreplica [Hm Hj].
  assert (@deserialize _ hydrationImports (serialize host) = Some host)
    as Hdecoded by by apply deserializeAs_serialize.
  assert (mobx_set (store w) host = host) as Hinstalled.
  { apply mobx_set_overwrite.
    pose proof (eq_trans Hreplica (eq_sym Hhost)) as Hdom.
    intros key Hkey. exact (eq_ind _ (λ X, key ∈ X) Hkey _ Hdom). }
  split; [done|]. unfold task.
  rewrite ipcStoreInit_spec, wsStoreInit_spec, Hdecoded.
  rewrite !settle_quiet by done. simpl. by rewrite Hinstalled.
Qed.

End Hydration.

(** * Further properties of the client *)

Section ClientBehaviour.
Context `{Imports}.

Lemma filter_isConfigUpdate_emissions cs os :
  List.filter isConfigUpdate (emissions cs os) = emissions cs os.
Proof.
  unfold emissions. induction cs as [|c cs IH]; [done|].
  simpl. rewrite List.filter_app, IH. f_equal. clear IH.
  induction os as [|o os IHo]; simpl; [done | by rewrite IHo].
Qed.

Lemma applied_app es1 es2 : applied (es1 ++ es2) = applied es1 ++ applied es2.
Proof. apply flat_map_app. Qed.

Lemma applied_emissions cs os : applied (emissions cs os) = [].
Proof.
  unfold emissions, applied. induction cs as [|c cs IH]; [done|].
  simpl. rewrite flat_map_app, IH, app_nil_r. clear IH.
  induction os as [|o os IHo]; simpl; auto.
Qed.

Lemma applied_reported w s' : applied (reported w s') = [].
Proof.
  unfold reported. destruct (isLocked _); [done|]. apply applied_emissions.
Qed.

Lemma task_ipcStoreInit data snapshot w :
  idle w → deserialize data = Some snapshot →
  task (ipcStoreInit data) w =
  extend
    (reported w (mobx_set (store w) snapshot) ++
     [Installed snapshot; Sent Ipc StoreInitDone])
    (setStore (mobx_set (store w) snapshot) w).
Proof.
  intros [_ Hj] Hdata. unfold task. rewrite ipcStoreInit_spec, Hdata.
  by rewrite settle_quiet.
Qed.

Lemma task_wsStoreInit data done snapshot w :
  idle w → deserialize data = Some snapshot →
  task (wsStoreInit data done) w =
  extend
    (reported w (mobx_set (store w) snapshot) ++
     Installed snapshot ::
     match done with Some d => [Acked d] | None => [] end)
    (setStore (mobx_set (store w) snapshot) w).
Proof.
  intros [_ Hj] Hdata. unfold task. rewrite wsStoreInit_spec, Hdata.
  by rewrite settle_quiet.
Qed.

(** X1: on the direct route (a path that does not start with [config],
    or no lock) the acknowledgement goes with the outcome of
    [applyChanges].  When it returns, the listener acknowledges, after the
    apply and as the last thing it does; when it throws, the listener
    throws too and acknowledges nothing.  The lock and the microtask queue
    are not touched either way. *)
Theorem direct_update_acknowledged_after_apply
    (l : MutexRef) (configLock : option MutexRef) (c : SerializedChange)
    (done : option AckFn) (w : World) :
  (startsWith (path c) "config" = false →
     ipcStoreUpdate l c w =
     match (applyChanges (store w) c).1 with
     | Returned _ =>
         (Returned (),
          extend
            (reported w (applyChanges (store w) c).2 ++
             [Applied c; Sent Ipc StoreUpdateDone])
            (setStore (applyChanges (store w) c).2 w))
     | Thrown =>
         (Thrown,
          extend (reported w (applyChanges (store w) c).2 ++ [Applied c])
            (setStore (applyChanges (store w) c).2 w))
     end) ∧
  (configLock = None ∨ startsWith (path c) "config" = false →
     wsStoreUpdate configLock c done w =
     match (applyChanges (store w) c).1 with
     | Returned _ =>
         (Returned (),
          extend
            (reported w (applyChanges (store w) c).2 ++
             Applied c ::
             match done with Some d => [Acked d] | None => [] end)
            (setStore (applyChanges (store w) c).2 w))
     | Thrown =>
         (Thrown,
          extend (reported w (applyChanges (store w) c).2 ++ [Applied c])
            (setStore (applyChanges (store w) c).2 w))
     end).
Proof.
  split.
  - intros Hp.
    rewrite ipcStoreUpdate_spec, applyConfigLockedChange_direct by auto.
    rewrite callApplyChanges_spec.
    destruct (applyChanges (store w) c) as [[[]|] s']; cbn [fst snd]; [|done].
    rewrite extend_extend. by rewrite <- app_assoc.
  - intros Hdirect.
    rewrite wsStoreUpdate_spec, applyConfigLockedChange_direct by done.
    rewrite callApplyChanges_spec.
    destruct (applyChanges (store w) c) as [[[]|] s']; cbn [fst snd]; [|done].
    rewrite extend_extend. by rewrite <- app_assoc.
Qed.

(** X2: a config change that fails under the lock is acknowledged all
    the same.  With the lock free and a path that starts with [config],
    the listener returns and acknowledges before [applyChanges] runs; when
    [applyChanges] then throws, the lock is released and the failure ends
    as a rejected promise nobody handles, never as an error of the
    listener. *)
Theorem failed_config_update_is_acknowledged
    (l : MutexRef) (c : SerializedChange) (done : option AckFn) (w : World) :
  idle w → startsWith (path c) "config" = true →
  (applyChanges (store w) c).1 = Thrown →
  (ipcStoreUpdate l c w).1 = Returned () ∧
  (wsStoreUpdate (Some l) c done w).1 = Returned () ∧
  task (ipcStoreUpdate l c) w =
    extend
      [Locked; Sent Ipc StoreUpdateDone; Applied c; Unlocked; Rejected]
      (setStore (applyChanges (store w) c).2 w) ∧
  task (wsStoreUpdate (Some l) c done) w =
    extend
      (Locked :: match done with Some d => [Acked d] | None => [] end ++
       [Applied c; Unlocked; Rejected])
      (setStore (applyChanges (store w) c).2 w).
Proof.
  intros Hw Hp Hr. split_and!.
  - by rewrite ipcStoreUpdate_spec, applyConfigLockedChange_locked.
  - by rewrite wsStoreUpdate_spec, applyConfigLockedChange_locked.
  - rewrite task_ipcStoreUpdate_locked by done. by rewrite Hr.
  - rewrite task_wsStoreUpdate_locked by done. by rewrite Hr.
Qed.

(** X3: a 'store-init' whose payload does not deserialize changes
    nothing.  The listener throws at [deserialize], before [set] and
    before the acknowledgement: the store, the lock and the history are
    as they were, and the task only records the uncaught error. *)
Theorem undecodable_snapshot_is_dropped
    (data : Wire) (done : option AckFn) (w : World) :
  deserialize data = None →
  ipcStoreInit data w = (Thrown, w) ∧
  wsStoreInit data done w = (Thrown, w) ∧
  (idle w →
     task (ipcStoreInit data) w = extend [Uncaught] w ∧
     task (wsStoreInit data done) w = extend [Uncaught] w).
Proof.
  intros Hdata. split_and!.
  - by rewrite ipcStoreInit_spec, Hdata.
  - by rewrite wsStoreInit_spec, Hdata.
  - intros [_ Hj]. unfold task.
    rewrite ipcStoreInit_spec, wsStoreInit_spec, Hdata.
    by rewrite settle_quiet.
Qed.

(** X4: hydrating again.  Two snapshots installed one after the other
    leave the store that installing their union (the later one winning)
    would leave, and installing the same snapshot a second time changes
    nothing. *)
Theorem rehydration_composes
    (d1 d2 : Wire) (a b : AppStore) (w : World) :
  idle w → deserialize d1 = Some a → deserialize d2 = Some b →
  store (task (ipcStoreInit d2) (task (ipcStoreInit d1) w))
  = (b ∪ a) ∪ store w ∧
  store (task (ipcStoreInit d1) (task (ipcStoreInit d1) w))
  = store (task (ipcStoreInit d1) w).
Proof.
  intros Hw H1 H2.
  rewrite (task_ipcStoreInit d1 a w) by done.
  rewrite !task_ipcStoreInit with (snapshot := b) by done.
  rewrite !task_ipcStoreInit with (snapshot := a) by done.
  simpl. rewrite !mobx_set_union. split.
  - by rewrite (assoc_L (∪)).
  - by rewrite (assoc_L (∪)), (idemp_L (∪)).
Qed.

(** X5: a config change that came in through the lock is not sent back.
    Whatever handlers are registered on [store.config], the task of a
    'store-update' for a path that starts with [config] changes the store
    and adds no 'config-update' to what was sent before. *)
Theorem remote_config_change_not_echoed
    (l : MutexRef) (c : SerializedChange) (done : option AckFn) (w : World) :
  idle w → startsWith (path c) "config" = true →
  (store (task (ipcStoreUpdate l c) w) = (applyChanges (store w) c).2 ∧
   List.filter isConfigUpdate (trace (task (ipcStoreUpdate l c) w))
   = List.filter isConfigUpdate (trace w)) ∧
  (store (task (wsStoreUpdate (Some l) c done) w)
   = (applyChanges (store w) c).2 ∧
   List.filter isConfigUpdate (trace (task (wsStoreUpdate (Some l) c done) w))
   = List.filter isConfigUpdate (trace w)).
Proof.
  intros Hw Hp.
  rewrite task_ipcStoreUpdate_locked, task_wsStoreUpdate_locked by done.
  simpl. rewrite !List.filter_app. simpl. split_and!; try done.
  - destruct (applyChanges (store w) c).1; simpl; by rewrite app_nil_r.
  - rewrite List.filter_app.
    destruct done, ((applyChanges (store w) c).1); simpl;
      by rewrite app_nil_r.
Qed.

(** X6: without a lock nothing holds the echo back.  A websocket
    listener registered without [configLock] applies every change
    directly, and with the lock free each change of the config subtree
    observed during the apply is sent as 'config-update' by each
    registered handler; nothing else is. *)
Theorem config_change_echoed_without_lock
    (c : SerializedChange) (done : option AckFn) (w : World) :
  isLocked (mutex w) = false →
  List.filter isConfigUpdate (trace (wsStoreUpdate None c done w).2)
  = List.filter isConfigUpdate (trace w) ++
    emissions (observed (store w) (applyChanges (store w) c).2)
      (observers w).
Proof.
  intros Hfree.
  rewrite wsStoreUpdate_spec, applyConfigLockedChange_direct by auto.
  rewrite callApplyChanges_spec. unfold reported. rewrite Hfree.
  destruct (applyChanges (store w) c) as [[[]|] s']; cbn [fst snd];
    simpl; rewrite !List.filter_app, filter_isConfigUpdate_emissions;
    destruct done; simpl; by rewrite ?app_nil_r.
Qed.

(** ** The replica follows the messages *)

Lemma setStore_same w : setStore (store w) w = w.
Proof. by destruct w. Qed.

Lemma task_ipcStoreUpdate_shape l c w :
  idle w →
  ∃ es, task (ipcStoreUpdate l c) w
        = extend es (setStore (applyChanges (store w) c).2 w) ∧
        applied es = [c].
Proof.
  intros Hw. destruct (startsWith (path c) "config") eqn:Hp.
  - rewrite task_ipcStoreUpdate_locked by done. eexists. split; [done|].
    by destruct (applyChanges (store w) c).1.
  - destruct Hw as [Hm Hj]. unfold task.
    rewrite ipcStoreUpdate_spec, applyConfigLockedChange_direct by auto.
    rewrite callApplyChanges_spec.
    destruct (applyChanges (store w) c) as [[[]|] s']; cbn [fst snd];
      rewrite settle_quiet by done; rewrite ?emit_extend, !extend_extend;
      (eexists; split; [done|]);
      rewrite !applied_app, applied_reported; done.
Qed.

Lemma task_wsStoreUpdate_shape configLock c done w :
  idle w →
  ∃ es, task (wsStoreUpdate configLock c done) w
        = extend es (setStore (applyChanges (store w) c).2 w) ∧
        applied es = [c].
Proof.
  intros Hw.
  assert ((∃ l, configLock = Some l ∧ startsWith (path c) "config" = true) ∨
          (configLock = None ∨ startsWith (path c) "config" = false))
    as [(l & -> & Hp)|Hdirect].
  { destruct configLock as [l|]; [|auto].
    destruct (startsWith (path c) "config"); eauto. }
  - rewrite task_wsStoreUpdate_locked by done. eexists. split; [done|].
    simpl. rewrite applied_app.
    by destruct done, ((applyChanges (store w) c).1).
  - destruct Hw as [Hm Hj]. unfold task.
    rewrite wsStoreUpdate_spec, applyConfigLockedChange_direct by done.
    rewrite callApplyChanges_spec.
    destruct (applyChanges (store w) c) as [[[]|] s']; cbn [fst snd];
      rewrite settle_quiet by done; rewrite ?emit_extend, !extend_extend;
      (eexists; split; [done|]);
      rewrite !applied_app, applied_reported; by destruct done.
Qed.

Lemma task_ipcStoreInit_shape data w :
  idle w →
  ∃ es, task (ipcStoreInit data) w
        = extend es (setStore (replicaStep (store w) (StoreInit data)) w) ∧
        applied es = [].
Proof.
  intros Hw. simpl. destruct (deserialize data) as [snapshot|] eqn:Hdata.
  - rewrite (task_ipcStoreInit data snapshot) by done.
    eexists. split; [done|]. by rewrite applied_app, applied_reported.
  - destruct Hw as [_ Hj]. unfold task. rewrite ipcStoreInit_spec, Hdata.
    rewrite settle_quiet by done. rewrite setStore_same.
    by exists [Uncaught].
Qed.

Lemma task_wsStoreInit_shape data done w :
  idle w →
  ∃ es, task (wsStoreInit data done) w
        = extend es (setStore (replicaStep (store w) (StoreInit data)) w) ∧
        applied es = [].
Proof.
  intros Hw. simpl. destruct (deserialize data) as [snapshot|] eqn:Hdata.
  - rewrite (task_wsStoreInit data done snapshot) by done.
    eexists. split; [done|]. rewrite applied_app, applied_reported.
    by destruct done.
  - destruct Hw as [_ Hj]. unfold task. rewrite wsStoreInit_spec, Hdata.
    rewrite settle_quiet by done. rewrite setStore_same.
    by exists [Uncaught].
Qed.

Lemma deliver_renderer l m done w :
  idle w → listeners w = [IpcStoreUpdate l; IpcStoreInit] →
  ∃ es, deliver Ipc m done w
        = extend es (setStore (replicaStep (store w) m) w) ∧
        applied es = changeOf m.
Proof.
  intros Hw Hl. unfold deliver. rewrite Hl. destruct m as [c|data]; simpl.
  - replace (task _ w) with (task (ipcStoreUpdate l c) w)
      by (unfold task; by rewrite bind_ret_unit).
    by apply task_ipcStoreUpdate_shape.
  - replace (task _ w) with (task (ipcStoreInit data) w)
      by (unfold task; by rewrite bind_ret_unit).
    by apply (task_ipcStoreInit_shape data).
Qed.

Lemma deliver_websocket configLock m done w :
  idle w → listeners w = [WsStoreUpdate configLock; WsStoreInit] →
  ∃ es, deliver Ws m done w
        = extend es (setStore (replicaStep (store w) m) w) ∧
        applied es = changeOf m.
Proof.
  intros Hw Hl. unfold deliver. rewrite Hl. destruct m as [c|data]; simpl.
  - replace (task _ w) with (task (wsStoreUpdate configLock c done) w)
      by (unfold task; by rewrite bind_ret_unit).
    by apply task_wsStoreUpdate_shape.
  - replace (task _ w) with (task (wsStoreInit data done) w)
      by (unfold task; by rewrite bind_ret_unit).
    by apply (task_wsStoreInit_shape data).
Qed.

Lemma deliverAll_follows t ls (ack : Incoming * option AckFn → option AckFn) :
  (∀ m done w, idle w → listeners w = ls →
     ∃ es, deliver t m done w
           = extend es (setStore (replicaStep (store w) m) w) ∧
           applied es = changeOf m) →
  ∀ ms w, idle w → listeners w = ls →
    store (deliverAll (map (λ a, (t, a.1, ack a)) ms) w)
    = foldl replicaStep (store w) (map fst ms) ∧
    applied (trace (deliverAll (map (λ a, (t, a.1, ack a)) ms) w))
    = applied (trace w) ++ flat_map changeOf (map fst ms).
Proof.
  intros Hstep ms. induction ms as [|[m d] ms IH]; intros w Hw Hl; simpl.
  - by rewrite app_nil_r.
  - destruct (Hstep m (ack (m, d)) w Hw Hl) as (es & -> & Hes).
    destruct (IH (extend es (setStore (replicaStep (store w) m) w)))
      as [-> ->]; [done..|].
    simpl. split; [done|]. by rewrite applied_app, Hes, <- app_assoc.
Qed.

(** X7: the replica is what the messages make it, in the order they
    arrive.  After registration, on either transport and with or without
    a lock, the store after any sequence of 'store-update' and
    'store-init' messages is the store obtained by handling them one by
    one on the spot, and [applyChanges] has run exactly once per
    'store-update', in arrival order: going through the lock delays an
    apply within its task but never drops, repeats or reorders one. *)
Theorem replica_follows_messages
    (l : MutexRef) (configLock : option MutexRef)
    (ms : list (Incoming * option AckFn)) (w : World) :
  idle w → listeners w = [] →
  let viaIpc :=
    deliverAll (map (λ a, (Ipc, a.1, None)) ms) (registerRendererIpc l w).2 in
  let viaWs :=
    deliverAll (map (λ a, (Ws, a.1, a.2)) ms)
      (registerWebsocketListener configLock w).2 in
  store viaIpc = foldl replicaStep (store w) (map fst ms) ∧
  store viaWs = foldl replicaStep (store w) (map fst ms) ∧
  applied (trace viaIpc)
  = applied (trace w) ++ flat_map changeOf (map fst ms) ∧
  applied (trace viaWs)
  = applied (trace w) ++ flat_map changeOf (map fst ms).
Proof.
  intros Hw Hl viaIpc viaWs.
  destruct (deliverAll_follows Ipc [IpcStoreUpdate l; IpcStoreInit]
              (λ _, None) (deliver_renderer l) ms (registerRendererIpc l w).2)
    as [Hs1 Ht1].
  { by destruct Hw. }
  { simpl. by rewrite Hl. }
  destruct (deliverAll_follows Ws [WsStoreUpdate configLock; WsStoreInit]
              snd (deliver_websocket configLock) ms
              (registerWebsocketListener configLock w).2)
    as [Hs2 Ht2].
  { by destruct Hw. }
  { simpl. by rewrite Hl. }
  subst viaIpc viaWs. rewrite Hs1, Hs2, Ht1, Ht2. simpl.
  rewrite applied_app. simpl. by rewrite app_nil_r.
Qed.

(** ** Several workers waiting for the lock *)

Lemma runJobs_quiet n w : microtasks w = [] → runJobs n w = w.
Proof. intros Hj. destruct n; simpl; by rewrite ?Hj. Qed.

Lemma runJobs_S n j js w :
  microtasks w = j :: js →
  runJobs (S n) w = runJobs n (runJob j (setMicrotasks js w)).
Proof. intros Hj. simpl. by rewrite Hj. Qed.

Lemma runJob_worker_locked c w :
  isLocked (mutex w) = true →
  runJob (RunWorker (ApplyWorker c)) w =
  match (applyChanges (store w) c).1 with
  | Returned _ =>
      schedule Release
        (extend [Applied c] (setStore (applyChanges (store w) c).2 w))
  | Thrown =>
      emit Rejected
        (release
           (extend [Applied c] (setStore (applyChanges (store w) c).2 w)))
  end.
Proof.
  intros Hl. unfold runJob. rewrite callApplyChanges_spec.
  unfold reported. rewrite Hl.
  by destruct (applyChanges (store w) c) as [[[]|] s'].
Qed.

(** The lock is held, one worker is about to run and the workers for
    [cs] wait in the queue: they are served in the order they came. *)
Lemma runJobs_drain cs : ∀ n c s ls os tr,
  (2 + 2 * length cs ≤ n)%nat →
  runJobs n
    {| store := s;
       mutex := {| value := 0; queue := ApplyWorker <$> cs |};
       microtasks := [RunWorker (ApplyWorker c)];
       listeners := ls; observers := os; trace := tr |}
  = {| store := applyAll s (c :: cs); mutex := freeMutex; microtasks := [];
       listeners := ls; observers := os;
       trace := tr ++ lockedEvents s (c :: cs) |}.
Proof.
  induction cs as [|c' cs IH]; intros n c s ls os tr Hn.
  - destruct n as [|[|n]]; [simpl in Hn; lia..|].
    rewrite (runJobs_S _ (RunWorker (ApplyWorker c)) []) by done.
    rewrite runJob_worker_locked by done.
    cbn [store setMicrotasks fmap list_fmap lockedEvents applyAll foldl].
    destruct (applyChanges s c) as [[[]|] s1]; cbn [fst snd].
    + world_simpl. rewrite (runJobs_S _ Release []) by done.
      unfold runJob. world_simpl. rewrite runJobs_quiet by done.
      f_equal. by rewrite <- !app_assoc.
    + world_simpl. rewrite runJobs_quiet by done.
      f_equal. by rewrite <- !app_assoc.
  - destruct n as [|[|n]]; [simpl in Hn; lia..|].
    rewrite (runJobs_S _ (RunWorker (ApplyWorker c)) []) by done.
    rewrite runJob_worker_locked by done.
    cbn [store setMicrotasks fmap list_fmap lockedEvents applyAll foldl].
    change (foldl _ ?s0 cs) with (applyAll s0 cs).
    destruct (applyChanges s c) as [[[]|] s1]; cbn [fst snd].
    + world_simpl. rewrite (runJobs_S _ Release []) by done.
      unfold runJob. world_simpl. cbn [app].
      rewrite IH by (simpl in Hn |- *; lia).
      f_equal. by rewrite <- !app_assoc.
    + world_simpl. cbn [app].
      rewrite IH by (simpl in Hn |- *; lia).
      f_equal. by rewrite <- !app_assoc.
Qed.

Lemma ipcStoreUpdate_queued l c w :
  isLocked (mutex w) = true → startsWith (path c) "config" = true →
  ipcStoreUpdate l c w =
  (Returned (),
   extend [Sent Ipc StoreUpdateDone]
     (setMutex {| value := value (mutex w);
                  queue := queue (mutex w) ++ [ApplyWorker c] |} w)).
Proof.
  intros Hl Hp.
  rewrite ipcStoreUpdate_spec, applyConfigLockedChange_locked by done.
  unfold acquire. by rewrite Hl.
Qed.

Lemma times_ipcStoreUpdate_queued l c k : ∀ s q js ls os tr,
  startsWith (path c) "config" = true →
  times k (ipcStoreUpdate l c)
    {| store := s; mutex := {| value := 0; queue := q |}; microtasks := js;
       listeners := ls; observers := os; trace := tr |}
  = (Returned (),
     {| store := s;
        mutex := {| value := 0;
                    queue := q ++ replicate k (ApplyWorker c) |};
        microtasks := js; listeners := ls; observers := os;
        trace := tr ++ replicate k (Sent Ipc StoreUpdateDone) |}).
Proof.
  induction k as [|k IH]; intros s q js ls os tr Hp; simpl.
  - unfold ret. by rewrite !app_nil_r.
  - unfold bind. rewrite ipcStoreUpdate_queued by done. world_simpl.
    rewrite IH by done. by rewrite <- !app_assoc.
Qed.

Lemma concat_replicate_end {A} k (x : list A) :
  concat (replicate k x) ++ x = x ++ concat (replicate k x).
Proof.
  induction k as [|k IH]; simpl; [by rewrite app_nil_r|].
  by rewrite <- app_assoc, IH.
Qed.

Lemma registerRendererIpc_iter l k w :
  Nat.iter k (λ w, (registerRendererIpc l w).2) w
  = {| store := store w; mutex := mutex w; microtasks := microtasks w;
       listeners :=
         listeners w ++ concat (replicate k [IpcStoreUpdate l; IpcStoreInit]);
       observers := observers w;
       trace := trace w ++ replicate k (Sent Ipc StoreSubscribe) |}.
Proof.
  induction k as [|k IH].
  - destruct w. simpl. by rewrite !app_nil_r.
  - rewrite Nat.iter_succ, IH. unfold registerRendererIpc, bind, effect,
      ipcSend, emit, addListener. simpl. f_equal.
    + rewrite <- !app_assoc. f_equal.
      apply (concat_replicate_end k [IpcStoreUpdate l; IpcStoreInit]).
    + rewrite <- !app_assoc. f_equal.
      change (?x :: replicate k ?x) with (replicate (S k) x).
      by rewrite replicate_S_end.
Qed.

Lemma runListeners_repeated l c k :
  runListeners (concat (replicate k [IpcStoreUpdate l; IpcStoreInit]))
    Ipc (StoreUpdate c) None
  = times k (ipcStoreUpdate l c).
Proof. induction k as [|k IH]; simpl; [done|]. by rewrite IH. Qed.

(** X8: registering again applies again.  Each call of
    [registerRendererIpc] adds its listeners to the ones already there.
    After [k + 1] calls, a 'store-update' for a path that starts with
    [config] is acknowledged [k + 1] times at once, before any apply; the
    change is then applied [k + 1] times, one apply after the other, each
    waiting for the lock until the one before has released it; and the
    lock ends free. *)
Theorem repeated_registration_repeats_apply
    (l : MutexRef) (c : SerializedChange) (k : nat) (w : World) :
  idle w → listeners w = [] → startsWith (path c) "config" = true →
  let w1 := Nat.iter (S k) (λ w, (registerRendererIpc l w).2) w in
  let w2 := deliver Ipc (StoreUpdate c) None w1 in
  store w2 = applyAll (store w) (replicate (S k) c) ∧
  trace w2 =
    trace w1 ++
    Locked :: replicate (S k) (Sent Ipc StoreUpdateDone) ++
    lockedEvents (store w) (replicate (S k) c) ∧
  idle w2.
Proof.
  intros [Hm Hj] Hl Hp w1 w2.
  assert (w2 =
    {| store := applyAll (store w) (replicate (S k) c);
       mutex := freeMutex; microtasks := [];
       listeners := listeners w1; observers := observers w1;
       trace := trace w1 ++
                Locked :: replicate (S k) (Sent Ipc StoreUpdateDone) ++
                lockedEvents (store w) (replicate (S k) c) |}) as ->;
    [|done].
  subst w2 w1. rewrite registerRendererIpc_iter.
  unfold deliver, task. cbn [listeners]. rewrite Hl. cbn [app].
  rewrite runListeners_repeated. cbn [times]. unfold bind at 1.
  rewrite ipcStoreUpdate_spec, applyConfigLockedChange_locked by done.
  rewrite acquire_idle by done. rewrite Hm, Hj. world_simpl. cbn [app].
  rewrite times_ipcStoreUpdate_queued by done.
  unfold settle, budget. cbn [microtasks mutex queue app].
  rewrite <- (fmap_replicate ApplyWorker).
  rewrite runJobs_drain.
  - f_equal. by rewrite <- !app_assoc.
  - rewrite length_fmap, length_replicate. simpl. lia.
Qed.
(** ** The lock between tasks *)

Lemma keepsBalance_frame (f : World → World) :
  (∀ w, mutex (f w) = mutex w) → (∀ w, microtasks (f w) = microtasks w) →
  keepsBalance (effect f).
Proof.
  intros Hm Hj w. unfold balanced, effect. simpl. by rewrite Hm, Hj.
Qed.

Lemma idle_call k w : idle w → idle (call k w).
Proof.
  destruct k; simpl; [..|apply idle_deliver]; apply idle_task;
    unfold registerRendererIpc, registerRendererConfigIpc,
      registerWebsocketListener, registerWebsocketConfigListener, ipcSend;
    repeat (apply keepsBalance_bind; [|intros ?]);
    by apply keepsBalance_frame.
Qed.

Lemma idle_run ks w : idle w → idle (run ks w).
Proof.
  unfold run. revert w. induction ks as [|k ks IH]; intros w Hw; [done|].
  simpl. by apply IH, idle_call.
Qed.

(** X9: the lock is only ever held within a task.  Whatever the
    application registers and whatever messages arrive, in whatever order,
    the lock is free and no continuation is pending when the last task has
    ended; a change the application then makes to the store itself is
    sent as 'config-update' by every registered handler for every change
    of the config subtree it is notified of. *)
Theorem lock_free_between_tasks
    (ks : list Call) (s s' : AppStore) :
  idle (run ks (newWorld s)) ∧
  isLocked (mutex (run ks (newWorld s))) = false ∧
  trace (mutate s' (run ks (newWorld s)))
  = trace (run ks (newWorld s)) ++
    emissions (observed (store (run ks (newWorld s))) s')
      (observers (run ks (newWorld s))).
Proof.
  assert (idle (run ks (newWorld s))) as Hw by by apply idle_run.
  split; [done|]. destruct Hw as [Hm Hj].
  assert (isLocked (mutex (run ks (newWorld s))) = false) as Hfree
    by by rewrite Hm.
  split; [done|]. rewrite mutate_spec. unfold reported. by rewrite Hfree.
Qed.

End ClientBehaviour.

(** * The definitions at work *)

Import Demo.

Example volume_update_trace :
  trace (deliver Ipc (StoreUpdate (volume 5)) None (renderer ∅))
  = [Sent Ipc StoreSubscribe; Locked; Sent Ipc StoreUpdateDone;
     Applied (volume 5); Unlocked].
Proof. vm_compute. reflexivity. Qed.

Example playlist_update_trace :
  trace (deliver Ipc (StoreUpdate (playlist 5)) None (renderer ∅))
  = [Sent Ipc StoreSubscribe; Applied (playlist 5);
     Sent Ipc StoreUpdateDone].
Proof. vm_compute. reflexivity. Qed.

Example failing_volume_update_trace :
  trace (deliver Ipc (StoreUpdate (volume (-5))) None (renderer ∅))
  = [Sent Ipc StoreSubscribe; Locked; Sent Ipc StoreUpdateDone;
     Applied (volume (-5)); Unlocked; Rejected].
Proof. vm_compute. reflexivity. Qed.

Example snapshot_install_reports_config :
  trace (deliver Ipc (StoreInit [("config/volume", 3%Z)]) None (renderer ∅))
  = [Sent Ipc StoreSubscribe; Sent Ipc (ConfigUpdate (volume 3));
     Installed {["config/volume" := 3%Z]}; Sent Ipc StoreInitDone].
Proof. vm_compute. reflexivity. Qed.

(** C3: the code at a 'store-update' for [config/volume].  When the
    listener returns, 'store-update-done' is already sent and the store
    is untouched; the change is applied afterwards, in a microtask.  The
    websocket listener calls [done] at the same point. *)
Theorem store_update_done_precedes_config_apply :
  (ipcStoreUpdate TheConfigLock (volume 8) (renderer ∅)).1 = Returned () ∧
  store (ipcStoreUpdate TheConfigLock (volume 8) (renderer ∅)).2 = ∅ ∧
  trace (ipcStoreUpdate TheConfigLock (volume 8) (renderer ∅)).2
  = [Sent Ipc StoreSubscribe; Locked; Sent Ipc StoreUpdateDone] ∧
  store (deliver Ipc (StoreUpdate (volume 8)) None (renderer ∅))
  = {["config/volume" := 8%Z]} ∧
  trace (deliver Ipc (StoreUpdate (volume 8)) None (renderer ∅))
  = [Sent Ipc StoreSubscribe; Locked; Sent Ipc StoreUpdateDone;
     Applied (volume 8); Unlocked] ∧
  trace (task (wsStoreUpdate (Some TheConfigLock) (volume 8)
                 (Some {| packet := 1 |})) (newWorld ∅))
  = [Locked; Acked {| packet := 1 |}; Applied (volume 8); Unlocked].
Proof. repeat split; vm_compute; reflexivity. Qed.

(** C2 as stated fails: [configuration] is not in the config subtree, a
    lock is given, and the change is not applied directly. *)
Lemma configuration_goes_through_lock :
  ¬ (∀ (c : SerializedChange) (configLock : option MutexRef) (w : World),
       configLock = None ∨ underConfig "/" (path c) = false →
       applyConfigLockedChange c configLock w = callApplyChanges c w).
Proof.
  intros Hdirect.
  specialize (Hdirect (configuration 5) (Some TheConfigLock) (newWorld ∅)).
  assert (microtasks
            (applyConfigLockedChange (configuration 5) (Some TheConfigLock)
               (newWorld ∅)).2
          = microtasks (callApplyChanges (configuration 5) (newWorld ∅)).2)
    as Hjobs by (rewrite Hdirect; [reflexivity | right; vm_compute; reflexivity]).
  vm_compute in Hjobs. discriminate.
Qed.


(** ** The theorems at concrete inputs *)

Lemma applyConfigLockedChange_routes_witness :
  applyConfigLockedChange (volume 5) (Some TheConfigLock) (renderer ∅)
  = runExclusive TheConfigLock (ApplyWorker (volume 5)) (renderer ∅) ∧
  applyConfigLockedChange (playlist 5) (Some TheConfigLock) (renderer ∅)
  = callApplyChanges (playlist 5) (renderer ∅) ∧
  store (task (applyConfigLockedChange (volume 5) (Some TheConfigLock))
           (renderer ∅))
  = (applyChanges (store (renderer ∅)) (volume 5)).2.
Proof.
  pose proof (applyConfigLockedChange_routes (volume 5) (Some TheConfigLock)
                (renderer ∅)) as (Hlock & _ & Hstore).
  pose proof (applyConfigLockedChange_routes (playlist 5)
                (Some TheConfigLock) (renderer ∅)) as (_ & Hdirect & _).
  split; [|split].
  - exact (Hlock TheConfigLock eq_refl eq_refl).
  - exact (proj1 (Hdirect (or_intror eq_refl))).
  - exact (Hstore (conj eq_refl eq_refl)).
Defined.

Lemma config_lock_released_on_every_exit_witness :
  idle (renderer ∅) ∧
  startsWith (path (volume (-5))) "config" = true ∧
  (applyChanges (store (renderer ∅)) (volume (-5))).1 = Thrown ∧
  isLocked
    (mutex (task (applyConfigLockedChange (volume (-5)) (Some TheConfigLock))
              (renderer ∅))) = false ∧
  Applied (volume 7)
  ∈ trace
      (task (applyConfigLockedChange (volume 7) (Some TheConfigLock))
         (deliverAll [(Ipc, StoreUpdate (playlist 1), None)]
            (task (applyConfigLockedChange (volume (-5))
                     (Some TheConfigLock))
               (renderer ∅)))).
Proof.
  pose proof (config_lock_released_on_every_exit (volume (-5)) TheConfigLock
                (renderer ∅) (conj eq_refl eq_refl) eq_refl) as Hexit.
  cbv zeta in Hexit. destruct Hexit as (_ & _ & (_ & _ & Hfree & _) & Hnext).
  split; [split; reflexivity|]. split; [reflexivity|].
  split; [reflexivity|]. split; [exact Hfree|].
  exact (proj2 (proj2 (Hnext [(Ipc, StoreUpdate (playlist 1), None)]
                         (volume 7) eq_refl))).
Defined.

Lemma renderer_hydration_witness :
  idle (newWorld {["config/volume" := 1%Z]}) ∧
  deserialize [("config/volume", 3%Z)] = Some {["config/volume" := 3%Z]} ∧
  instanceOf {["config/volume"]} (store (newWorld {["config/volume" := 1%Z]})) ∧
  instanceOf {["config/volume"]} ({["config/volume" := 3%Z]} : gmap string Z) ∧
  instanceOf {["config/volume"]} (store (newWorld {["config/volume" := 7%Z]})) ∧
  store
    (deliver Ipc (StoreInit [("config/volume", 3%Z)]) None
       (registerRendererIpc TheConfigLock
          (newWorld {["config/volume" := 1%Z]})).2)
  = {["config/volume" := 3%Z]} ∧
  store
    (deliver Ipc (StoreInit [("config/volume", 3%Z)]) None
       (registerRendererIpc TheConfigLock
          (newWorld {["config/volume" := 7%Z]})).2)
  = store
      (deliver Ipc (StoreInit [("config/volume", 3%Z)]) None
         (registerRendererIpc TheConfigLock
            (newWorld {["config/volume" := 1%Z]})).2).
Proof.
  assert (∀ v : Z,
            instanceOf {["config/volume"]}
              ({["config/volume" := v]} : gmap string Z)) as Hinstance.
  { intros v. unfold instanceOf. apply dom_singleton_L. }
  pose proof (renderer_hydration TheConfigLock {["config/volume"]}
                [("config/volume", 3%Z)] {["config/volume" := 3%Z]}
                (newWorld {["config/volume" := 1%Z]})
                (conj eq_refl eq_refl) eq_refl eq_refl
                (Hinstance 1%Z) (Hinstance 3%Z)) as Hhydrated.
  cbv zeta in Hhydrated.
  destruct Hhydrated as (_ & Hstore & _ & Hany).
  split; [split; reflexivity|]. split; [reflexivity|].
  split; [exact (Hinstance 1%Z)|]. split; [exact (Hinstance 3%Z)|].
  split; [exact (Hinstance 7%Z)|]. split; [exact Hstore|].
  exact (Hany (newWorld {["config/volume" := 7%Z]}) (conj eq_refl eq_refl)
           eq_refl (Hinstance 7%Z)).
Defined.

Lemma hydration_restores_source_witness :
  instanceOf {["config/volume"]} ({["config/volume" := 3%Z]} : gmap string Z) ∧
  @idle (codecSchema Z Z) (newWorld {["config/volume" := 1%Z]}) ∧
  @store (codecSchema Z Z)
    (@task _ (codecImports Z Z {["config/volume"]} demoApply demoObserved)
       (@ipcStoreInit _
          (codecImports Z Z {["config/volume"]} demoApply demoObserved)
          (serialize {["config/volume" := 3%Z]}))
       (newWorld {["config/volume" := 1%Z]}))
  = {["config/volume" := 3%Z]}.
Proof.
  assert (∀ v : Z,
            @instanceOf (codecSchema Z Z) {["config/volume"]}
              ({["config/volume" := v]} : gmap string Z)) as Hinstance.
  { intros v. unfold instanceOf. apply dom_singleton_L. }
  split; [exact (Hinstance 3%Z)|]. split; [split; reflexivity|].
  exact (proj1 (proj2 (hydration_restores_source {["config/volume"]}
                         demoApply demoObserved {["config/volume" := 3%Z]}
                         None (newWorld {["config/volume" := 1%Z]})
                         (Hinstance 3%Z) (Hinstance 1%Z)
                         (conj eq_refl eq_refl)))).
Defined.

Lemma config_test_is_prefix_check_witness :
  (∀ rest, path (playlist 1) ≠ "config" +:+ rest) ∧
  applyConfigLockedChange (playlist 1) (Some TheConfigLock) (renderer ∅)
  = callApplyChanges (playlist 1) (renderer ∅).
Proof.
  assert (∀ rest, path (playlist 1) ≠ "config" +:+ rest) as Hpath.
  { intros rest Hrest.
    change ("playlist" = String "c" ("onfig" +:+ rest)) in Hrest.
    discriminate Hrest. }
  split; [exact Hpath|].
  exact (proj1 (proj2 (config_test_is_prefix_check TheConfigLock (playlist 1)
                         (renderer ∅))) Hpath).
Defined.


Lemma websocket_listeners_tolerate_missing_done_witness :
  idle (newWorld ∅) ∧
  (applyChanges (store (newWorld ∅)) (volume 5)).1 = Returned () ∧
  deserialize [("playlist", 2%Z)] = Some {["playlist" := 2%Z]} ∧
  store (task (wsStoreUpdate (Some TheConfigLock) (volume 5) None)
           (newWorld ∅))
  = (applyChanges (store (newWorld ∅)) (volume 5)).2 ∧
  store (wsStoreInit [("playlist", 2%Z)] None (newWorld ∅)).2
  = mobx_set (store (newWorld ∅)) {["playlist" := 2%Z]}.
Proof.
  pose proof (websocket_listeners_tolerate_missing_done (Some TheConfigLock)
                (volume 5) [("playlist", 2%Z)] (newWorld ∅))
    as (_ & _ & Hupdate & Hinit).
  split; [split; reflexivity|]. split; [reflexivity|]. split; [reflexivity|].
  split.
  - exact (proj1 (proj2 (Hupdate (conj eq_refl eq_refl) eq_refl))).
  - exact (proj1 (proj2 (Hinit {["playlist" := 2%Z]} eq_refl))).
Defined.

(** ** The further properties at concrete inputs *)

Lemma direct_update_acknowledged_after_apply_witness :
  startsWith (path (playlist 5)) "config" = false ∧
  (ipcStoreUpdate TheConfigLock (playlist 5) (renderer ∅)).1 = Returned () ∧
  (wsStoreUpdate None (volume (-5)) (Some {| packet := 1 |}) (renderer ∅)).1
  = Thrown.
Proof.
  pose proof (direct_update_acknowledged_after_apply TheConfigLock None
                (playlist 5) None (renderer ∅)) as [Hipc _].
  pose proof (direct_update_acknowledged_after_apply TheConfigLock None
                (volume (-5)) (Some {| packet := 1 |}) (renderer ∅))
    as [_ Hws].
  split; [reflexivity|]. split.
  - rewrite (Hipc eq_refl). reflexivity.
  - rewrite (Hws (or_introl eq_refl)). reflexivity.
Defined.

Lemma failed_config_update_is_acknowledged_witness :
  idle (renderer ∅) ∧
  startsWith (path (volume (-5))) "config" = true ∧
  (applyChanges (store (renderer ∅)) (volume (-5))).1 = Thrown ∧
  (ipcStoreUpdate TheConfigLock (volume (-5)) (renderer ∅)).1 = Returned ().
Proof.
  split; [split; reflexivity|]. split; [reflexivity|]. split; [reflexivity|].
  exact (proj1 (failed_config_update_is_acknowledged TheConfigLock
                  (volume (-5)) None (renderer ∅)
                  (conj eq_refl eq_refl) eq_refl eq_refl)).
Defined.

Lemma undecodable_snapshot_is_dropped_witness :
  @deserialize _ Strict.imports [("config/volume", (-1)%Z)] = None ∧
  @ipcStoreInit _ Strict.imports [("config/volume", (-1)%Z)]
    (newWorld {["config/volume" := 1%Z]})
  = (Thrown, newWorld {["config/volume" := 1%Z]}) ∧
  @task _ Strict.imports
    (@wsStoreInit _ Strict.imports [("config/volume", (-1)%Z)] None)
    (newWorld {["config/volume" := 1%Z]})
  = extend [Uncaught] (newWorld {["config/volume" := 1%Z]}).
Proof.
  pose proof (@undecodable_snapshot_is_dropped _ Strict.imports
                [("config/volume", (-1)%Z)] None
                (newWorld {["config/volume" := 1%Z]}) eq_refl)
    as (Hipc & _ & Htask).
  split; [reflexivity|]. split; [exact Hipc|].
  exact (proj2 (Htask (conj eq_refl eq_refl))).
Defined.

Lemma rehydration_composes_witness :
  idle (newWorld ∅) ∧
  deserialize [("playlist", 1%Z)] = Some {["playlist" := 1%Z]} ∧
  deserialize [("playlist", 2%Z); ("config/volume", 3%Z)]
  = Some (<["playlist" := 2%Z]> {["config/volume" := 3%Z]}) ∧
  store
    (task (ipcStoreInit [("playlist", 2%Z); ("config/volume", 3%Z)])
       (task (ipcStoreInit [("playlist", 1%Z)]) (newWorld ∅)))
  = (<["playlist" := 2%Z]> {["config/volume" := 3%Z]}
     ∪ {["playlist" := 1%Z]}) ∪ store (newWorld ∅).
Proof.
  split; [split; reflexivity|]. split; [reflexivity|]. split; [reflexivity|].
  exact (proj1 (rehydration_composes [("playlist", 1%Z)]
                  [("playlist", 2%Z); ("config/volume", 3%Z)]
                  {["playlist" := 1%Z]}
                  (<["playlist" := 2%Z]> {["config/volume" := 3%Z]})
                  (newWorld ∅) (conj eq_refl eq_refl) eq_refl eq_refl)).
Defined.

Lemma remote_config_change_not_echoed_witness :
  idle (renderer ∅) ∧
  startsWith (path (volume 5)) "config" = true ∧
  observers (renderer ∅) = [ConfigObserver Ipc TheConfigLock] ∧
  List.filter isConfigUpdate
    (trace (task (ipcStoreUpdate TheConfigLock (volume 5)) (renderer ∅)))
  = List.filter isConfigUpdate (trace (renderer ∅)).
Proof.
  split; [split; reflexivity|]. split; [reflexivity|]. split; [reflexivity|].
  exact (proj2 (proj1 (remote_config_change_not_echoed TheConfigLock
                         (volume 5) None (renderer ∅)
                         (conj eq_refl eq_refl) eq_refl))).
Defined.

Lemma config_change_echoed_without_lock_witness :
  isLocked (mutex (renderer ∅)) = false ∧
  emissions
    (observed (store (renderer ∅))
       (applyChanges (store (renderer ∅)) (volume 5)).2)
    (observers (renderer ∅))
  = [Sent Ipc (ConfigUpdate (volume 5))] ∧
  List.filter isConfigUpdate
    (trace (wsStoreUpdate None (volume 5) None (renderer ∅)).2)
  = List.filter isConfigUpdate (trace (renderer ∅)) ++
    emissions
      (observed (store (renderer ∅))
         (applyChanges (store (renderer ∅)) (volume 5)).2)
      (observers (renderer ∅)).
Proof.
  split; [reflexivity|]. split; [vm_compute; reflexivity|].
  exact (config_change_echoed_without_lock (volume 5) None (renderer ∅)
           eq_refl).
Defined.

Lemma replica_follows_messages_witness :
  idle (newWorld ∅) ∧
  store
    (deliverAll
       (map (λ a : Incoming * option AckFn, (Ipc, a.1, None))
          [(StoreInit [("playlist", 1%Z)], None);
           (StoreUpdate (volume 5), Some {| packet := 1 |})])
       (registerRendererIpc TheConfigLock (newWorld ∅)).2)
  = foldl replicaStep (store (newWorld ∅))
      (map fst
         [(StoreInit [("playlist", 1%Z)], None);
          (StoreUpdate (volume 5), Some {| packet := 1 |})]).
Proof.
  split; [split; reflexivity|].
  exact (proj1 (replica_follows_messages TheConfigLock None
                  [(StoreInit [("playlist", 1%Z)], None);
                   (StoreUpdate (volume 5), Some {| packet := 1 |})]
                  (newWorld ∅) (conj eq_refl eq_refl) eq_refl)).
Defined.

Lemma repeated_registration_repeats_apply_witness :
  idle (newWorld ∅) ∧
  startsWith (path (volume 5)) "config" = true ∧
  store
    (deliver Ipc (StoreUpdate (volume 5)) None
       (Nat.iter 2 (λ w, (registerRendererIpc TheConfigLock w).2)
          (newWorld ∅)))
  = applyAll (store (newWorld ∅)) (replicate 2 (volume 5)).
Proof.
  split; [split; reflexivity|]. split; [reflexivity|].
  exact (proj1 (repeated_registration_repeats_apply TheConfigLock (volume 5)
                  1 (newWorld ∅) (conj eq_refl eq_refl) eq_refl eq_refl)).
Defined.
